(** * Path optimizer core: state-equation generator, vehicle model,
      cubic spline and parameter records

    Shallow embedding of
      - [VehicleModel]            (vehicle_model.hpp)
      - [StateEquationGenerator]  (state_equation_generator.hpp)
      - [CubicSpline]             (cubic_spline.hpp)
      - the parameter records     (path_optimizer_types.hpp)

    Numbers.  A C++ [double] is modelled by a real number of the Standard
    Library ([R]): rounding, infinities and NaN are not represented, and a
    division by zero takes the value the library gives it.  A [size_t] is an
    integer modulo 2^64 with the wrap-around written out; Eigen's [Index] is
    the signed 64-bit reading of it.

    Undefined behaviour.  Every Eigen operation checks what Eigen asserts
    (non-negative sizes, blocks inside the matrix, matching dimensions) and
    returns [None] where the assertion fails, as do an out-of-range
    [operator[]] on the reference points and a null [vehicle_model_]. *)

From Stdlib Require Import Reals ZArith List Bool Lia Lra.
Import ListNotations.

(** ** The option monad used for operations that can hit an assertion *)

Definition bind {X Y : Type} (m : option X) (k : X -> option Y) : option Y :=
  match m with
  | Some x => k x
  | None => None
  end.

Notation "x <- m ;; k" := (bind m (fun x => k))
  (at level 61, m at next level, right associativity).

(** ** size_t and Eigen::Index *)

Module SizeT.
Local Open Scope Z_scope.

Definition modulus : Z := 2 ^ 64.

Definition wrap (z : Z) : Z := z mod modulus.

Definition mul (a b : Z) : Z := wrap (a * b).
Definition sub (a b : Z) : Z := wrap (a - b).

(** [std::vector::size()]. *)
Definition size {X : Type} (v : list X) : Z := Z.of_nat (length v).

(** Conversion of a [size_t] to the signed [Eigen::Index]. *)
Definition to_Index (z : Z) : Z := if z <? 2 ^ 63 then z else z - modulus.

(** [for (size_t i = lo; i < hi; ++i)] visits these indices. *)
Definition range (lo hi : Z) : list Z :=
  map (fun k => lo + Z.of_nat k) (seq 0 (Z.to_nat (hi - lo))).
End SizeT.

(** A loop whose body can fail. *)
Fixpoint foldM {S : Type} (body : Z -> S -> option S) (l : list Z) (s : S)
  : option S :=
  match l with
  | [] => Some s
  | i :: l' => s' <- body i s ;; foldM body l' s'
  end.

Definition for_loop {S : Type} (lo hi : Z) (body : Z -> S -> option S) (s : S)
  : option S :=
  foldM body (SizeT.range lo hi) s.

(** ** Eigen dense matrices *)

Module Eigen.
Local Open Scope Z_scope.

(** [Eigen::MatrixXd]; [Eigen::VectorXd] is the case [cols = 1]. *)
Record MatrixXd : Type := mkMatrix {
  rows : Z;
  cols : Z;
  coeff : Z -> Z -> R
}.

(** Two matrices are the same matrix: same shape, same coefficients. *)
Definition Meq (M N : MatrixXd) : Prop :=
  rows M = rows N /\ cols M = cols N /\
  forall i j, 0 <= i < rows M -> 0 <= j < cols M -> coeff M i j = coeff N i j.

Definition zero_raw (r c : Z) : MatrixXd := mkMatrix r c (fun _ _ => 0%R).

(** [MatrixXd::Zero(r, c)]; [VectorXd::Zero(n)] is [Zero n 1]. *)
Definition Zero (r c : Z) : option MatrixXd :=
  if (0 <=? r) && (0 <=? c) then Some (zero_raw r c) else None.

(** The comma initializer [M.resize(r, c); M << v0, v1, ...] (row by row). *)
Definition from_list (r c : Z) (l : list R) : MatrixXd :=
  mkMatrix r c (fun i j => nth (Z.to_nat (i * c + j)) l 0%R).

(** The range check of Eigen's [Block] constructor. *)
Definition block_ok (M : MatrixXd) (r c p q : Z) : bool :=
  (0 <=? r) && (0 <=? p) && (r <=? rows M - p) &&
  (0 <=? c) && (0 <=? q) && (c <=? cols M - q).

Definition block_raw (M : MatrixXd) (r c p q : Z) : MatrixXd :=
  mkMatrix p q (fun i j => coeff M (r + i) (c + j)).

(** [M.block(r, c, p, q)] read. *)
Definition block (M : MatrixXd) (r c p q : Z) : option MatrixXd :=
  if block_ok M r c p q then Some (block_raw M r c p q) else None.

Definition inside (r c p q i j : Z) : bool :=
  (r <=? i) && (i <? r + p) && (c <=? j) && (j <? c + q).

Definition assign_block_raw (M : MatrixXd) (r c p q : Z) (X : MatrixXd)
  : MatrixXd :=
  mkMatrix (rows M) (cols M)
    (fun i j => if inside r c p q i j then coeff X (i - r) (j - c)
                else coeff M i j).

(** [M.block(r, c, p, q) = X]: a block cannot be resized, so the shapes
    must agree. *)
Definition assign_block (M : MatrixXd) (r c p q : Z) (X : MatrixXd)
  : option MatrixXd :=
  if block_ok M r c p q && (rows X =? p) && (cols X =? q)
  then Some (assign_block_raw M r c p q X) else None.

(** [v.segment(i, n)] of a vector. *)
Definition segment (v : MatrixXd) (i n : Z) : option MatrixXd :=
  block v i 0 n 1.

Definition assign_segment (v : MatrixXd) (i n : Z) (X : MatrixXd)
  : option MatrixXd :=
  assign_block v i 0 n 1 X.

Fixpoint sum_upto (n : nat) (f : Z -> R) : R :=
  match n with
  | O => 0%R
  | S m => (sum_upto m f + f (Z.of_nat m))%R
  end.

Definition mul_raw (M N : MatrixXd) : MatrixXd :=
  mkMatrix (rows M) (cols N)
    (fun i j => sum_upto (Z.to_nat (cols M))
                  (fun k => (coeff M i k * coeff N k j)%R)).

(** [M * N]. *)
Definition mul (M N : MatrixXd) : option MatrixXd :=
  if cols M =? rows N then Some (mul_raw M N) else None.

Definition add_raw (M N : MatrixXd) : MatrixXd :=
  mkMatrix (rows M) (cols M) (fun i j => (coeff M i j + coeff N i j)%R).

(** [M + N]. *)
Definition add (M N : MatrixXd) : option MatrixXd :=
  if (rows M =? rows N) && (cols M =? cols N) then Some (add_raw M N)
  else None.
End Eigen.

(** ** path_optimizer_types.hpp *)

Module Types.
Local Open Scope R_scope.

Record Point : Type := mkPoint { px : R; py : R; pz : R }.
Definition Point_default : Point := mkPoint 0.0 0.0 0.0.

Record Quaternion : Type := mkQuaternion { qx : R; qy : R; qz : R; qw : R }.
Definition Quaternion_default : Quaternion := mkQuaternion 0.0 0.0 0.0 1.0.

Record Pose : Type := mkPose { position : Point; orientation : Quaternion }.
Definition Pose_default : Pose := mkPose Point_default Quaternion_default.

Record Bounds : Type := mkBounds { lower_bound : R; upper_bound : R }.
Definition Bounds_default : Bounds := mkBounds 0.0 0.0.

Record KinematicState : Type := mkKinematicState { lat : R; yaw : R }.
Definition KinematicState_default : KinematicState :=
  mkKinematicState 0.0 0.0.

Record ReferencePoint : Type := mkReferencePoint {
  pose : Pose;
  longitudinal_velocity_mps : R;
  curvature : R;
  delta_arc_length : R;
  alpha : R;
  normalized_avoidance_cost : R;
  bounds : Bounds;
  fixed_kinematic_state : option KinematicState;
  optimized_kinematic_state : KinematicState;
  optimized_input : R
}.

Definition ReferencePoint_default : ReferencePoint :=
  mkReferencePoint Pose_default 0.0 0.0 0.0 0.0 0.0 Bounds_default None
                   KinematicState_default 0.0.

Record MPTParam : Type := mkMPTParam {
  num_curvature_sampling_points : Z;
  delta_arc_length_for_mpt_points : R;
  num_points : Z;
  max_optimization_time_ms : R;
  l_inf_weight : R;
  lat_error_weight : R;
  weight_lat_error : R;
  yaw_error_weight : R;
  yaw_error_rate_weight : R;
  steer_input_weight : R;
  weight_steer_input : R;
  steer_rate_weight : R;
  terminal_lat_error_weight : R;
  terminal_yaw_error_weight : R;
  goal_lat_error_weight : R;
  goal_yaw_error_weight : R;
  optimization_center_offset : R;
  max_steer_rad : R;
  max_steer_rate_rad_per_s : R;
  enable_avoidance : bool;
  avoidance_precision : R;
  soft_collision_free_weight : R;
  enable_terminal_constraint : bool;
  terminal_lat_error_threshold : R;
  terminal_yaw_error_threshold : R
}.

Definition MPTParam_default : MPTParam :=
  mkMPTParam 5%Z 1.0 100%Z 50.0
             1.0 1.0 1.0 0.0 0.0 1.0 0.1 1.0
             100.0 0.0 1000.0 0.0
             0.0
             0.7 0.5
             true 0.5 1000.0
             true 0.3 0.1.

Record TrajectoryParam : Type := mkTrajectoryParam {
  output_delta_arc_length : R;
  output_backward_traj_length : R;
  num_sampling_points : Z
}.

Definition TrajectoryParam_default : TrajectoryParam :=
  mkTrajectoryParam 0.5 2.0 100%Z.

Record EgoNearestParam : Type := mkEgoNearestParam {
  dist_threshold : R;
  yaw_threshold : R
}.

Definition EgoNearestParam_default : EgoNearestParam :=
  mkEgoNearestParam 3.0 1.046.

Record ReplanCheckerParam : Type := mkReplanCheckerParam {
  max_path_shape_change_dist : R;
  max_ego_moving_dist : R;
  max_delta_time_sec : R
}.

Definition ReplanCheckerParam_default : ReplanCheckerParam :=
  mkReplanCheckerParam 0.5 5.0 2.0.

Record PathOptimizerParam : Type := mkPathOptimizerParam {
  trajectory : TrajectoryParam;
  ego_nearest : EgoNearestParam;
  mpt : MPTParam;
  replan_checker : ReplanCheckerParam;
  enable_outside_drivable_area_stop : bool;
  vehicle_stop_margin_outside_drivable_area : R;
  enable_skip_optimization : bool;
  enable_reset_prev_optimization : bool
}.

Definition PathOptimizerParam_default : PathOptimizerParam :=
  mkPathOptimizerParam TrajectoryParam_default EgoNearestParam_default
                       MPTParam_default ReplanCheckerParam_default
                       true 0.5 false true.
End Types.

(** ** vehicle_model.hpp *)

Module Vehicle.
Import Eigen.
Local Open Scope R_scope.

Record VehicleModel : Type := mkVehicleModel {
  wheelbase_ : R;
  steer_limit_ : R
}.

Definition getDimX (_ : VehicleModel) : Z := 2%Z.
Definition getDimU (_ : VehicleModel) : Z := 1%Z.

(** [std::clamp(v, lo, hi)]: [lo] if [v < lo], [hi] if [hi < v], else [v].
    The standard requires [lo <= hi]. *)
Definition clamp (v lo hi : R) : R :=
  if Rlt_dec v lo then lo else if Rlt_dec hi v then hi else v.

(** The three output parameters [Ad], [Bd], [Wd] are returned as a triple. *)
Definition calculateStateEquationMatrix
    (vm : VehicleModel) (curvature ds : R)
  : MatrixXd * MatrixXd * MatrixXd :=
  let delta_r := atan (wheelbase_ vm * curvature) in
  let cropped_delta_r := clamp delta_r (- steer_limit_ vm) (steer_limit_ vm) in
  let Ad := from_list 2 2 [1.0; ds;
                           0.0; 1.0] in
  let cos_delta := cos delta_r in
  let Bd := from_list 2 1 [0.0;
                           ds / wheelbase_ vm / (cos_delta * cos_delta)] in
  let tan_cropped := tan cropped_delta_r in
  let cos_cropped := cos cropped_delta_r in
  let Wd := from_list 2 1
              [0.0;
               - ds * curvature + ds / wheelbase_ vm *
               (tan_cropped - cropped_delta_r / (cos_cropped * cos_cropped))] in
  (Ad, Bd, Wd).
End Vehicle.

(** ** state_equation_generator.hpp *)

Module StateEq.
Import Eigen Types Vehicle.
Local Open Scope Z_scope.

Record Matrix : Type := mkMatrixABW {
  A : MatrixXd;
  B : MatrixXd;
  W : MatrixXd
}.

(** [vehicle_model_] is a [unique_ptr]: null after the default
    constructor. *)
Record StateEquationGenerator : Type := mkGenerator {
  vehicle_model_ : option VehicleModel
}.

Definition StateEquationGenerator_default : StateEquationGenerator :=
  mkGenerator None.

Definition StateEquationGenerator_new (wheelbase max_steer_rad : R)
  : StateEquationGenerator :=
  mkGenerator (Some (mkVehicleModel wheelbase max_steer_rad)).

(** The two horizon sizes, in [size_t] arithmetic. *)
Definition calcMatrix_N_x (N_ref D_x : Z) : Z := SizeT.mul N_ref D_x.
Definition calcMatrix_N_u (N_ref D_u : Z) : Z :=
  SizeT.mul (SizeT.sub N_ref 1) D_u.

(** Body of the inner loop over [k]. *)
Definition calcMatrix_inner (D_x D_u : Z) (Ad : MatrixXd) (i : Z)
    (k : Z) (Bm : MatrixXd) : option MatrixXd :=
  Bprev <- block Bm (SizeT.to_Index (SizeT.mul (SizeT.sub i 1) D_x))
                    (SizeT.to_Index (SizeT.mul k D_u))
                    (SizeT.to_Index D_x) (SizeT.to_Index D_u) ;;
  prod <- mul Ad Bprev ;;
  assign_block Bm (SizeT.to_Index (SizeT.mul i D_x))
                  (SizeT.to_Index (SizeT.mul k D_u))
                  (SizeT.to_Index D_x) (SizeT.to_Index D_u) prod.

(** Body of the loop over [i]. *)
Definition calcMatrix_body (vm : VehicleModel)
    (ref_points : list ReferencePoint) (D_x D_u : Z)
    (i : Z) (st : Matrix) : option Matrix :=
  p <- nth_error ref_points (Z.to_nat (SizeT.sub i 1)) ;;
  let '(Ad, Bd, Wd) :=
    calculateStateEquationMatrix vm 0.0%R (delta_arc_length p) in
  Wprev <- segment (W st) (SizeT.to_Index (SizeT.mul (SizeT.sub i 1) D_x))
                          (SizeT.to_Index D_x) ;;
  AW <- mul Ad Wprev ;;
  Wi <- add AW Wd ;;
  W' <- assign_segment (W st) (SizeT.to_Index (SizeT.mul i D_x))
                              (SizeT.to_Index D_x) Wi ;;
  B' <- for_loop 0 (SizeT.sub i 1) (calcMatrix_inner D_x D_u Ad i) (B st) ;;
  B'' <- assign_block B' (SizeT.to_Index (SizeT.mul i D_x))
                         (SizeT.to_Index (SizeT.mul (SizeT.sub i 1) D_u))
                         (SizeT.to_Index D_x) (SizeT.to_Index D_u) Bd ;;
  A' <- assign_block (A st) (SizeT.to_Index (SizeT.mul i D_x))
                            (SizeT.to_Index (SizeT.mul (SizeT.sub i 1) D_x))
                            (SizeT.to_Index D_x) (SizeT.to_Index D_x) Ad ;;
  Some (mkMatrixABW A' B'' W').

Definition calcMatrix (g : StateEquationGenerator)
    (ref_points : list ReferencePoint) : option Matrix :=
  vm <- vehicle_model_ g ;;
  let D_x := getDimX vm in
  let D_u := getDimU vm in
  let N_ref := SizeT.size ref_points in
  let N_x := calcMatrix_N_x N_ref D_x in
  let N_u := calcMatrix_N_u N_ref D_u in
  A0 <- Zero (SizeT.to_Index N_x) (SizeT.to_Index N_x) ;;
  B0 <- Zero (SizeT.to_Index N_x) (SizeT.to_Index N_u) ;;
  W0 <- Zero (SizeT.to_Index N_x) 1 ;;
  Z0 <- Zero (SizeT.to_Index D_x) 1 ;;
  W1 <- assign_segment W0 0 (SizeT.to_Index D_x) Z0 ;;
  for_loop 1 N_ref (calcMatrix_body vm ref_points D_x D_u)
           (mkMatrixABW A0 B0 W1).

Definition predict (mat : Matrix) (U : MatrixXd) : option MatrixXd :=
  BU <- mul (B mat) U ;;
  add BU (W mat).

(** The one-step matrices the loop obtains at iteration [k + 1]: those of
    reference point [k], with curvature 0.0. *)
Definition step_matrices (vm : VehicleModel)
    (ref_points : list ReferencePoint) (k : nat)
  : MatrixXd * MatrixXd * MatrixXd :=
  calculateStateEquationMatrix vm 0.0%R
    (delta_arc_length (nth k ref_points ReferencePoint_default)).

(** Closed form of block [j] of [W]:
    W[0] = 0, W[j+1] = A_d W[j] + W_d. *)
Fixpoint W_block (vm : VehicleModel) (ref_points : list ReferencePoint)
    (j : nat) : MatrixXd :=
  match j with
  | O => zero_raw 2 1
  | S k =>
      let '(Ad, _, Wd) := step_matrices vm ref_points k in
      add_raw (mul_raw Ad (W_block vm ref_points k)) Wd
  end.

(** Closed form of block [(j, c)] of [B]:
    B[j+1, c] = A_d B[j, c] for c < j, B[j+1, j] = B_d, zero elsewhere. *)
Fixpoint B_block (vm : VehicleModel) (ref_points : list ReferencePoint)
    (j : nat) (c : Z) : MatrixXd :=
  match j with
  | O => zero_raw 2 1
  | S k =>
      let '(Ad, Bd, _) := step_matrices vm ref_points k in
      if c <? Z.of_nat k then mul_raw Ad (B_block vm ref_points k c)
      else if c =? Z.of_nat k then Bd
      else zero_raw 2 1
  end.

(** Step-by-step simulation of the one-step recurrence
      X[0] = 0,  X[i] = A_d X[i-1] + B_d u_{i-1} + W_d
    with [A_d], [B_d], [W_d] of reference point [i-1], curvature 0.0 and
    that point's [delta_arc_length].  [U] is the stacked input vector. *)
Fixpoint simulate (vm : VehicleModel) (ref_points : list ReferencePoint)
    (U : MatrixXd) (i : nat) : MatrixXd :=
  match i with
  | O => zero_raw 2 1
  | S k =>
      let '(Ad, Bd, Wd) := step_matrices vm ref_points k in
      let u := block_raw U (Z.of_nat k) 0 1 1 in
      add_raw (add_raw (mul_raw Ad (simulate vm ref_points U k))
                       (mul_raw Bd u))
              Wd
  end.

(** [std::vector<ReferencePoint>::max_size()]: no vector holds more than
    [PTRDIFF_MAX / sizeof(ReferencePoint)] elements, and a reference point
    is larger than the 56 bytes of its pose. *)
Definition ref_points_max_size : Z := (2 ^ 63 - 1) / 56.
End StateEq.

(** ** cubic_spline.hpp *)

Module Spline.
Local Open Scope R_scope.

Record CubicSpline : Type := mkCubicSpline {
  x_ : list R;
  y_ : list R;
  a_ : list R;
  b_ : list R;
  c_ : list R;
  d_ : list R
}.

(** [CubicSpline() = default]: six empty vectors. *)
Definition CubicSpline_default : CubicSpline :=
  mkCubicSpline [] [] [] [] [] [].

(** [v[i]] read (undefined in C++ when [i] is out of range). *)
Definition at_ (v : list R) (i : nat) : R := nth i v 0.

(** [v[i] = r]. *)
Fixpoint assign (v : list R) (i : nat) (r : R) : list R :=
  match v, i with
  | [], _ => []
  | _ :: t, O => r :: t
  | h :: t, S k => h :: assign t k r
  end.

(** [std::vector<double> v(n)]. *)
Definition new_vector (n : nat) : list R := repeat 0.0 n.

(** [v.resize(n)]: the first [n] values stay, new ones are 0.0. *)
Definition resize (v : list R) (n : nat) : list R :=
  firstn n v ++ repeat 0.0 (n - length v).

Definition front (v : list R) : R := hd 0 v.
Definition back (v : list R) : R := last v 0.

(** [static_cast<int>(n)] for a [size_t] [n]. *)
Definition to_int (z : Z) : Z := ((z + 2 ^ 31) mod 2 ^ 32 - 2 ^ 31)%Z.

(** [for (int i = start; i >= 0; --i)] visits these indices. *)
Definition countdown (start : Z) : list nat :=
  rev (seq 0 (Z.to_nat (start + 1))).

(** The step widths [h[i] = x[i+1] - x[i]].  All index arithmetic below
    is on [n >= 3], where no [size_t] subtraction wraps. *)
Definition calc_h (x : list R) (n : nat) : list R :=
  fold_left (fun h i => assign h i (at_ x (i + 1) - at_ x i))
            (seq 0 (n - 1)) (new_vector (n - 1)).

Definition calc_alpha (y h : list R) (n : nat) : list R :=
  fold_left
    (fun alpha i =>
       assign alpha i
         (3.0 / at_ h i * (at_ y (i + 1) - at_ y i)
          - 3.0 / at_ h (i - 1) * (at_ y i - at_ y (i - 1))))
    (seq 1 (n - 2)) (new_vector n).

(** The three work vectors of the Thomas algorithm. *)
Record Thomas : Type := mkThomas {
  l : list R;
  mu : list R;
  z : list R
}.

Definition thomas_step (x h alpha : list R) (t : Thomas) (i : nat)
  : Thomas :=
  let l' := assign (l t) i
              (2.0 * (at_ x (i + 1) - at_ x (i - 1))
               - at_ h (i - 1) * at_ (mu t) (i - 1)) in
  let mu' := assign (mu t) i (at_ h i / at_ l' i) in
  let z' := assign (z t) i
              ((at_ alpha i - at_ h (i - 1) * at_ (z t) (i - 1))
               / at_ l' i) in
  mkThomas l' mu' z'.

Definition thomas_forward (x h alpha : list R) (n : nat) : Thomas :=
  fold_left (thomas_step x h alpha) (seq 1 (n - 2))
    (mkThomas (assign (new_vector n) 0 1.0)
              (assign (new_vector n) 0 0.0)
              (assign (new_vector n) 0 0.0)).

(** The coefficient vectors written by the back substitution. *)
Record Coeffs : Type := mkCoeffs {
  cb : list R;
  cc : list R;
  cd : list R
}.

Definition back_step (y h : list R) (t : Thomas) (k : Coeffs) (i : nat)
  : Coeffs :=
  let c' := assign (cc k) i (at_ (z t) i - at_ (mu t) i * at_ (cc k) (i + 1)) in
  let b' := assign (cb k) i
              ((at_ y (i + 1) - at_ y i) / at_ h i
               - at_ h i * (at_ c' (i + 1) + 2.0 * at_ c' i) / 3.0) in
  let d' := assign (cd k) i
              ((at_ c' (i + 1) - at_ c' i) / (3.0 * at_ h i)) in
  mkCoeffs b' c' d'.

Definition back_substitution (y h : list R) (t : Thomas) (n : nat)
    (k : Coeffs) : Coeffs :=
  fold_left (back_step y h t) (countdown (to_int (Z.of_nat n) - 2)) k.

(** [calcSplineCoefficients]: the object before the call, the two
    arguments, the object after the call. *)
Definition calcSplineCoefficients (s : CubicSpline) (x y : list R)
  : CubicSpline :=
  let n := length x in
  if (n <? 2)%nat then s
  else
    let b0 := resize (b_ s) n in
    let c0 := resize (c_ s) n in
    let d0 := resize (d_ s) n in
    if (n =? 2)%nat then
      mkCubicSpline x y y
        (assign b0 0 ((at_ y 1 - at_ y 0) / (at_ x 1 - at_ x 0)))
        (assign c0 0 0.0)
        (assign d0 0 0.0)
    else
      let h := calc_h x n in
      let alpha := calc_alpha y h n in
      let t := thomas_forward x h alpha n in
      let t' := mkThomas (assign (l t) (n - 1) 1.0) (mu t)
                         (assign (z t) (n - 1) 0.0) in
      let k := back_substitution y h t' n
                 (mkCoeffs b0 (assign c0 (n - 1) 0.0) d0) in
      mkCubicSpline x y y (cb k) (cc k) (cd k).

(** [std::lower_bound(v.begin(), v.end(), x)] as an index: the usual
    binary search, [len] being the width of the window at [first]. *)
Fixpoint lower_bound_loop (fuel : nat) (v : list R) (first len : nat)
    (x : R) : nat :=
  match fuel with
  | O => first
  | S fuel' =>
      if (len =? 0)%nat then first
      else
        let half := Nat.div2 len in
        let middle := (first + half)%nat in
        if Rlt_dec (at_ v middle) x
        then lower_bound_loop fuel' v (middle + 1) (len - half - 1) x
        else lower_bound_loop fuel' v first half x
  end.

Definition lower_bound (v : list R) (x : R) : nat :=
  lower_bound_loop (length v) v 0 (length v) x.

(** [x_.size() - 2] is only reached on a fitted spline, where
    [x_.size() >= 2]. *)
Definition findSegment (s : CubicSpline) (x : R) : nat :=
  let it := lower_bound (x_ s) x in
  if (it =? length (x_ s))%nat then (length (x_ s) - 2)%nat
  else if (it =? 0)%nat then 0%nat
  else (it - 1)%nat.

Definition empty (v : list R) : bool :=
  match v with [] => true | _ :: _ => false end.

Definition interpolate (s : CubicSpline) (x : R) : R :=
  if empty (x_ s) then 0.0
  else if Rle_dec x (front (x_ s)) then front (y_ s)
  else if Rge_dec x (back (x_ s)) then back (y_ s)
  else
    let i := findSegment s x in
    let dx := x - at_ (x_ s) i in
    at_ (a_ s) i + at_ (b_ s) i * dx + at_ (c_ s) i * dx * dx
    + at_ (d_ s) i * dx * dx * dx.

Definition derivative (s : CubicSpline) (x : R) : R :=
  if empty (x_ s) then 0.0
  else if Rle_dec x (front (x_ s)) then front (b_ s)
  else if Rge_dec x (back (x_ s)) then back (b_ s)
  else
    let i := findSegment s x in
    let dx := x - at_ (x_ s) i in
    at_ (b_ s) i + 2.0 * at_ (c_ s) i * dx + 3.0 * at_ (d_ s) i * dx * dx.

(** The two tests of [x <= x_.front() || x >= x_.back()] are taken in
    order. *)
Definition secondDerivative (s : CubicSpline) (x : R) : R :=
  if empty (x_ s) then 0.0
  else if Rle_dec x (front (x_ s)) then 0.0
  else if Rge_dec x (back (x_ s)) then 0.0
  else
    let i := findSegment s x in
    let dx := x - at_ (x_ s) i in
    2.0 * at_ (c_ s) i + 6.0 * at_ (d_ s) i * dx.

(** The abscissas are strictly increasing. *)
Definition strictly_increasing (x : list R) : Prop :=
  forall i, (i + 1 < length x)%nat -> at_ x i < at_ x (i + 1).

(** Slope of the cubic of segment [i] at abscissa [x]. *)
Definition segment_slope (s : CubicSpline) (i : nat) (x : R) : R :=
  let dx := x - at_ (x_ s) i in
  at_ (b_ s) i + 2 * at_ (c_ s) i * dx + 3 * at_ (d_ s) i * dx * dx.


(** A polynomial of degree at most 3 and its two derivatives. *)
Definition poly3 (p0 p1 p2 p3 x : R) : R :=
  p0 + p1 * x + p2 * x * x + p3 * x * x * x.
End Spline.

(** ** Sample inputs of the state-equation generator *)

Module Samples.
Import Eigen Types Vehicle StateEq.
Local Open Scope R_scope.

(** A reference point with the given curvature and step, every other
    field at its default. *)
Definition ref_point (kappa ds : R) : ReferencePoint :=
  mkReferencePoint Pose_default 0.0 kappa ds 0.0 0.0 Bounds_default None
                   KinematicState_default 0.0.

Definition straight : list ReferencePoint :=
  [ref_point 0 1; ref_point 0 1].

Definition curved : list ReferencePoint :=
  [ref_point 0.05 1; ref_point (-0.2) 1].

(** One steering input, for a horizon of two points. *)
Definition one_input : MatrixXd := from_list 1 1 [0.1].

(** The vehicle of [VehicleInfo]'s defaults. *)
Definition default_vehicle : VehicleModel := mkVehicleModel 2.79 0.7.
End Samples.

(** ** Notions used to state the spline properties *)

Module SplineSpec.
Import Spline.
Local Open Scope R_scope.

(** What the back substitution leaves in [b_], [c_] and [d_] at index
    [i]. *)
Definition back_relations (y h : list R) (t : Thomas) (k : Coeffs)
    (i : nat) : Prop :=
  at_ (cc k) i = at_ (z t) i - at_ (mu t) i * at_ (cc k) (i + 1) /\
  at_ (cb k) i =
    (at_ y (i + 1) - at_ y i) / at_ h i
    - at_ h i * (at_ (cc k) (i + 1) + 2.0 * at_ (cc k) i) / 3.0 /\
  at_ (cd k) i =
    (at_ (cc k) (i + 1) - at_ (cc k) i) / (3.0 * at_ h i).


(** Sample data. *)
Definition line_x : list R := [0; 1].
Definition line_y : list R := [0; 1].
Definition parabola_x : list R := [0; 1; 2].
Definition parabola_y : list R := map (poly3 0 0 1 0) parabola_x.
End SplineSpec.

(** ** Loop invariants of [calcMatrix] *)

Module StateEqInv.
Import Eigen Types Vehicle StateEq.
Local Open Scope Z_scope.

(** Shapes of the three horizon matrices for [n] reference points. *)
Definition dims_ok (n : Z) (st : Matrix) : Prop :=
  rows (A st) = 2 * n /\ cols (A st) = 2 * n /\
  rows (B st) = 2 * n /\ cols (B st) = n - 1 /\
  rows (W st) = 2 * n /\ cols (W st) = 1.

(** Before iteration [i]: block rows below [i] hold their closed form,
    the others are still zero. *)
Definition outer_inv (vm : VehicleModel) (ref_points : list ReferencePoint)
    (n i : Z) (st : Matrix) : Prop :=
  dims_ok n st /\
  (forall j a, 0 <= j < n -> 0 <= a < 2 ->
     coeff (W st) (2 * j + a) 0 =
     if j <? i then coeff (W_block vm ref_points (Z.to_nat j)) a 0
     else 0%R) /\
  (forall j a c, 0 <= j < n -> 0 <= a < 2 -> 0 <= c < n - 1 ->
     coeff (B st) (2 * j + a) c =
     if j <? i then coeff (B_block vm ref_points (Z.to_nat j) c) a 0
     else 0%R).

(** Inside iteration [i], before inner iteration [k]: the columns below
    [k] of block row [i] are written, everything else is as in [B0]. *)
Definition inner_inv (n i : Z) (Ad B0 : MatrixXd) (k : Z) (Bm : MatrixXd)
  : Prop :=
  rows Bm = 2 * n /\ cols Bm = n - 1 /\
  forall r c,
    coeff Bm r c =
    if inside (2 * i) 0 2 k r c
    then coeff (mul_raw Ad (block_raw B0 (2 * (i - 1)) c 2 1)) (r - 2 * i) 0
    else coeff B0 r c.
End StateEqInv.

(** ** Notions used to state further properties *)

Module Segments.
Import Spline.
Local Open Scope R_scope.

(** Value and second derivative of the cubic of segment [i] at abscissa
    [x] (the slope is [segment_slope]). *)
Definition segment_value (s : CubicSpline) (i : nat) (x : R) : R :=
  let dx := x - at_ (x_ s) i in
  at_ (a_ s) i + at_ (b_ s) i * dx + at_ (c_ s) i * dx * dx
  + at_ (d_ s) i * dx * dx * dx.

Definition segment_second (s : CubicSpline) (i : nat) (x : R) : R :=
  let dx := x - at_ (x_ s) i in
  2 * at_ (c_ s) i + 6 * at_ (d_ s) i * dx.

(** The right-hand side of the spline equations at knot [i]. *)
Definition knot_rhs (x y : list R) (i : nat) : R :=
  3 / (at_ x (i + 1) - at_ x i) * (at_ y (i + 1) - at_ y i)
  - 3 / (at_ x i - at_ x (i - 1)) * (at_ y i - at_ y (i - 1)).

(** The forward sweep has set entry [i] of its three work vectors. *)
Definition thomas_entry (x h alpha : list R) (t : Thomas) (i : nat) : Prop :=
  0 < at_ (l t) i /\
  at_ (l t) i = 2.0 * (at_ x (i + 1) - at_ x (i - 1))
                - at_ h (i - 1) * at_ (mu t) (i - 1) /\
  at_ (mu t) i = at_ h i / at_ (l t) i /\
  at_ (z t) i = (at_ alpha i - at_ h (i - 1) * at_ (z t) (i - 1))
                / at_ (l t) i.

(** Invariant of the forward sweep before index [k]. *)
Definition thomas_inv (x h alpha : list R) (n k : nat) (t : Thomas) : Prop :=
  (length (l t) = n /\ length (mu t) = n /\ length (z t) = n) /\
  (at_ (mu t) 0 = 0 /\ at_ (z t) 0 = 0) /\
  (forall i, (1 <= i < k)%nat -> thomas_entry x h alpha t i) /\
  (forall i, (i < k)%nat -> 0 <= at_ (mu t) i < 1).
End Segments.

Module Horizon.
Import Eigen Types Vehicle StateEq.
Local Open Scope Z_scope.

(** The arc-length step stored at reference point [k]. *)
Definition step_length (ref_points : list ReferencePoint) (k : Z) : R :=
  delta_arc_length (nth (Z.to_nat k) ref_points ReferencePoint_default).

(** Arc length from the first reference point to point [i]: the sum of
    the steps stored at the points before [i]. *)
Definition arc_length (ref_points : list ReferencePoint) (i : nat) : R :=
  sum_upto i (step_length ref_points).

(** Before iteration [i]: [A] holds the one-step matrix [A_d] of point
    [j - 1] in block [(j, j - 1)] for [1 <= j < i] and zeros elsewhere. *)
Definition A_inv (vm : VehicleModel) (ref_points : list ReferencePoint)
    (n i : Z) (st : Matrix) : Prop :=
  forall j a k b, 0 <= j < n -> 0 <= a < 2 -> 0 <= k < n -> 0 <= b < 2 ->
    coeff (A st) (2 * j + a) (2 * k + b) =
    if (1 <=? j) && (j <? i) && (k =? j - 1)
    then coeff (fst (fst (step_matrices vm ref_points (Z.to_nat (j - 1)))))
               a b
    else 0%R.
End Horizon.

(* ================================================================== *)
(** * Proofs *)

(** ** size_t arithmetic without overflow *)

Section SizeT_facts.
Local Open Scope Z_scope.

Lemma wrap_small (z : Z) :
  0 <= z < 18446744073709551616 -> SizeT.wrap z = z.
Proof.
  intros H. unfold SizeT.wrap, SizeT.modulus.
  change (2 ^ 64) with 18446744073709551616.
  apply Z.mod_small; exact H.
Qed.

Lemma to_Index_small (z : Z) :
  0 <= z < 9223372036854775808 -> SizeT.to_Index z = z.
Proof.
  intros H. unfold SizeT.to_Index.
  change (2 ^ 63) with 9223372036854775808.
  destruct (Z.ltb_spec z 9223372036854775808); [reflexivity | lia].
Qed.

Lemma sub_small (a b : Z) :
  0 <= a - b < 18446744073709551616 -> SizeT.sub a b = a - b.
Proof. intros H. unfold SizeT.sub. now apply wrap_small. Qed.

Lemma mul_small (a b : Z) :
  0 <= a * b < 18446744073709551616 -> SizeT.mul a b = a * b.
Proof. intros H. unfold SizeT.mul. now apply wrap_small. Qed.

Lemma ref_points_max_size_val :
  StateEq.ref_points_max_size = 164703072086692425.
Proof. reflexivity. Qed.
End SizeT_facts.

(** ** Loops *)

Section Loop_facts.
Local Open Scope Z_scope.
Variable St : Type.
Variable body : Z -> St -> option St.

Lemma foldM_range_inv (P : Z -> St -> Prop) (lo : Z) :
  forall (n a : nat) (s : St),
    (forall i s, lo + Z.of_nat a <= i < lo + Z.of_nat a + Z.of_nat n ->
                 P i s -> exists s', body i s = Some s' /\ P (i + 1) s') ->
    P (lo + Z.of_nat a) s ->
    exists s',
      foldM body (map (fun k => lo + Z.of_nat k) (seq a n)) s = Some s' /\
      P (lo + Z.of_nat a + Z.of_nat n) s'.
Proof.
  intros n. induction n as [|n IH]; intros a s step Hs.
  - exists s. simpl. split; [reflexivity|].
    now replace (lo + Z.of_nat a + 0) with (lo + Z.of_nat a) by lia.
  - cbn [seq map foldM].
    assert (Hr : lo + Z.of_nat a <= lo + Z.of_nat a
                 < lo + Z.of_nat a + Z.of_nat (S n)) by lia.
    destruct (step _ s Hr Hs) as [s1 [E1 H1]].
    rewrite E1. cbn [bind].
    replace (lo + Z.of_nat a + 1) with (lo + Z.of_nat (S a)) in H1
      by lia.
    destruct (IH (S a) s1) as [s2 [E2 H2]].
    + intros i s0 Hi. apply step. lia.
    + exact H1.
    + exists s2. split; [exact E2|].
      now replace (lo + Z.of_nat a + Z.of_nat (S n))
        with (lo + Z.of_nat (S a) + Z.of_nat n) by lia.
Qed.

(** A loop whose body keeps an invariant and never fails returns, and the
    invariant holds at the exit index. *)
Lemma for_loop_inv (P : Z -> St -> Prop) (lo hi : Z) (s : St) :
  lo <= hi ->
  P lo s ->
  (forall i s, lo <= i < hi -> P i s ->
               exists s', body i s = Some s' /\ P (i + 1) s') ->
  exists s', for_loop lo hi body s = Some s' /\ P hi s'.
Proof.
  intros Hle H0 step. unfold for_loop, SizeT.range.
  destruct (foldM_range_inv P lo (Z.to_nat (hi - lo)) O s) as [s' [E H]].
  - intros i s0 Hi. apply step. lia.
  - now replace (lo + Z.of_nat 0) with lo by lia.
  - exists s'. split; [exact E|].
    now replace (lo + Z.of_nat 0 + Z.of_nat (Z.to_nat (hi - lo))) with hi in H
      by lia.
Qed.
End Loop_facts.

(** ** Eigen operations inside their assertions *)

Section Eigen_facts.
Import Eigen.
Local Open Scope Z_scope.

Lemma Zero_some (r c : Z) :
  0 <= r -> 0 <= c -> Zero r c = Some (zero_raw r c).
Proof.
  intros Hr Hc. unfold Zero.
  destruct (Z.leb_spec 0 r); [|lia].
  destruct (Z.leb_spec 0 c); [reflexivity|lia].
Qed.

Lemma block_ok_true (M : MatrixXd) (r c p q : Z) :
  0 <= r -> 0 <= p -> r + p <= rows M ->
  0 <= c -> 0 <= q -> c + q <= cols M ->
  block_ok M r c p q = true.
Proof.
  intros. unfold block_ok.
  repeat (apply andb_true_intro; split); apply Z.leb_le; lia.
Qed.

Lemma block_some (M : MatrixXd) (r c p q : Z) :
  0 <= r -> 0 <= p -> r + p <= rows M ->
  0 <= c -> 0 <= q -> c + q <= cols M ->
  block M r c p q = Some (block_raw M r c p q).
Proof. intros. unfold block. now rewrite block_ok_true. Qed.

Lemma assign_block_some (M : MatrixXd) (r c p q : Z) (X : MatrixXd) :
  0 <= r -> 0 <= p -> r + p <= rows M ->
  0 <= c -> 0 <= q -> c + q <= cols M ->
  rows X = p -> cols X = q ->
  assign_block M r c p q X = Some (assign_block_raw M r c p q X).
Proof.
  intros. unfold assign_block. rewrite block_ok_true by assumption.
  subst p q. now rewrite !Z.eqb_refl.
Qed.

Lemma mul_some (M N : MatrixXd) :
  cols M = rows N -> mul M N = Some (mul_raw M N).
Proof. intros H. unfold mul. now rewrite H, Z.eqb_refl. Qed.

Lemma add_some (M N : MatrixXd) :
  rows M = rows N -> cols M = cols N -> add M N = Some (add_raw M N).
Proof. intros H1 H2. unfold add. now rewrite H1, H2, !Z.eqb_refl. Qed.

Lemma inside_true (r c p q i j : Z) :
  r <= i < r + p -> c <= j < c + q -> inside r c p q i j = true.
Proof.
  intros [? ?] [? ?]. unfold inside.
  repeat (apply andb_true_intro; split);
    first [apply Z.leb_le; lia | apply Z.ltb_lt; lia].
Qed.

Lemma inside_false (r c p q i j : Z) :
  i < r \/ r + p <= i \/ j < c \/ c + q <= j -> inside r c p q i j = false.
Proof.
  intros H. unfold inside.
  destruct (Z.leb_spec r i), (Z.ltb_spec i (r + p)), (Z.leb_spec c j),
    (Z.ltb_spec j (c + q)); try reflexivity; lia.
Qed.

(** Finite sums. *)
Lemma sum_upto_ext (n : nat) (f g : Z -> R) :
  (forall k, 0 <= k < Z.of_nat n -> f k = g k) ->
  sum_upto n f = sum_upto n g.
Proof.
  induction n as [|n IH]; intros H; [reflexivity|].
  cbn [sum_upto]. rewrite IH, (H (Z.of_nat n)) by (try intros; try apply H; lia).
  reflexivity.
Qed.

Lemma sum_upto_zero (n : nat) (f : Z -> R) :
  (forall k, 0 <= k < Z.of_nat n -> f k = 0%R) -> sum_upto n f = 0%R.
Proof.
  induction n as [|n IH]; intros H; [reflexivity|].
  cbn [sum_upto]. rewrite IH, (H (Z.of_nat n)) by (try intros; try apply H; lia).
  lra.
Qed.

Lemma sum_upto_plus (n : nat) (f g : Z -> R) :
  sum_upto n (fun k => (f k + g k)%R) = (sum_upto n f + sum_upto n g)%R.
Proof.
  induction n as [|n IH]; cbn [sum_upto]; [lra|]. rewrite IH. lra.
Qed.

Lemma sum_upto_scal (n : nat) (a : R) (f : Z -> R) :
  sum_upto n (fun k => (a * f k)%R) = (a * sum_upto n f)%R.
Proof.
  induction n as [|n IH]; cbn [sum_upto]; [lra|]. rewrite IH. lra.
Qed.

(** A sum with a single non-zero term. *)
Lemma sum_upto_single (n : nat) (j : Z) (f : Z -> R) :
  0 <= j < Z.of_nat n ->
  (forall k, 0 <= k < Z.of_nat n -> k <> j -> f k = 0%R) ->
  sum_upto n f = f j.
Proof.
  induction n as [|n IH]; intros Hj H; [lia|].
  cbn [sum_upto]. destruct (Z.eq_dec j (Z.of_nat n)) as [->|Hne].
  - rewrite sum_upto_zero; [lra|]. intros k Hk. apply H; lia.
  - rewrite IH, (H (Z.of_nat n)); [lra|lia|lia|lia|].
    intros k Hk. apply H; lia.
Qed.
End Eigen_facts.

(** ** The state-equation generator *)

Section StateEq_facts.
Import Eigen Types Vehicle StateEq StateEqInv.
Local Open Scope Z_scope.

Lemma calc_dims (vm : VehicleModel) (kappa ds : R) (Ad Bd Wd : MatrixXd) :
  calculateStateEquationMatrix vm kappa ds = (Ad, Bd, Wd) ->
  rows Ad = 2 /\ cols Ad = 2 /\ rows Bd = 2 /\ cols Bd = 1 /\
  rows Wd = 2 /\ cols Wd = 1.
Proof.
  unfold calculateStateEquationMatrix. intros E.
  injection E as <- <- <-. repeat split.
Qed.

Ltac size_simpl :=
  unfold SizeT.mul, SizeT.sub;
  repeat match goal with
         | |- context [SizeT.wrap ?z] => rewrite (wrap_small z) by lia
         end;
  repeat match goal with
         | |- context [SizeT.to_Index ?z] => rewrite (to_Index_small z) by lia
         end.

Variable vm : VehicleModel.
Variable ref_points : list ReferencePoint.
Variable n : Z.
Hypothesis Hn : n = SizeT.size ref_points.
Hypothesis Hmax : n <= 164703072086692425.

Lemma inner_step (i : Z) (Ad B0 : MatrixXd) (k : Z) (Bm : MatrixXd) :
  1 <= i < n -> rows Ad = 2 -> cols Ad = 2 ->
  0 <= k < i - 1 ->
  inner_inv n i Ad B0 k Bm ->
  exists Bm', calcMatrix_inner 2 1 Ad i k Bm = Some Bm' /\
              inner_inv n i Ad B0 (k + 1) Bm'.
Proof.
  intros Hi HrA HcA Hk (Hr & Hc & Hco).
  unfold calcMatrix_inner. size_simpl.
  rewrite block_some by lia. cbn [bind].
  rewrite mul_some by (cbn [block_raw rows]; lia). cbn [bind].
  rewrite assign_block_some
    by (cbn [mul_raw block_raw rows cols]; lia).
  eexists. split; [reflexivity|].
  split; [exact Hr|]. split; [exact Hc|].
  intros r c. cbn [assign_block_raw coeff].
  destruct (inside ((i * 2)) (k * 1) 2 1 r c) eqn:E1.
  - assert (Hin : (i * 2 <= r < i * 2 + 2) /\ c = k).
    { unfold inside in E1.
      destruct (Z.leb_spec (i * 2) r), (Z.ltb_spec r (i * 2 + 2)),
        (Z.leb_spec (k * 1) c), (Z.ltb_spec c (k * 1 + 1));
        try discriminate; lia. }
    destruct Hin as [Hrr ->].
    rewrite inside_true by lia.
    cbn [mul_raw block_raw coeff]. rewrite HcA.
    replace (r - i * 2) with (r - 2 * i) by lia.
    apply sum_upto_ext. intros b Hb.
    rewrite Hco. rewrite inside_false by lia.
    replace ((i - 1) * 2 + b) with (2 * (i - 1) + b) by lia.
    replace (k * 1 + (k - k * 1)) with (k + 0) by lia.
    reflexivity.
  - rewrite Hco.
    destruct (inside (2 * i) 0 2 k r c) eqn:E2.
    + rewrite inside_true; [reflexivity| |].
      * unfold inside in E2.
        destruct (Z.leb_spec (2 * i) r), (Z.ltb_spec r (2 * i + 2));
          try discriminate; lia.
      * unfold inside in E2.
        destruct (Z.leb_spec (2 * i) r), (Z.ltb_spec r (2 * i + 2)),
          (Z.leb_spec 0 c), (Z.ltb_spec c (0 + k));
          try discriminate; lia.
    + rewrite inside_false; [reflexivity|].
      unfold inside in E1, E2.
      destruct (Z.leb_spec (i * 2) r), (Z.ltb_spec r (i * 2 + 2)),
        (Z.leb_spec (k * 1) c), (Z.ltb_spec c (k * 1 + 1)),
        (Z.leb_spec (2 * i) r), (Z.ltb_spec r (2 * i + 2)),
        (Z.leb_spec 0 c), (Z.ltb_spec c (0 + k));
        try discriminate; lia.
Qed.

Lemma inner_loop (i : Z) (Ad B0 : MatrixXd) :
  1 <= i < n -> rows Ad = 2 -> cols Ad = 2 ->
  rows B0 = 2 * n -> cols B0 = n - 1 ->
  exists B',
    for_loop 0 (SizeT.sub i 1) (calcMatrix_inner 2 1 Ad i) B0 = Some B' /\
    inner_inv n i Ad B0 (i - 1) B'.
Proof.
  intros Hi HrA HcA Hr Hc. rewrite sub_small by lia.
  apply for_loop_inv with (P := inner_inv n i Ad B0); [lia| |].
  - split; [exact Hr|]. split; [exact Hc|].
    intros r c. now rewrite inside_false by lia.
  - intros k Bm Hk Hinv. now apply inner_step.
Qed.

Lemma to_nat_pred (i : Z) : 1 <= i -> Z.to_nat i = S (Z.to_nat (i - 1)).
Proof. lia. Qed.

Lemma body_step (i : Z) (st : Matrix) :
  1 <= i < n ->
  outer_inv vm ref_points n i st ->
  exists st', calcMatrix_body vm ref_points 2 1 i st = Some st' /\
              outer_inv vm ref_points n (i + 1) st'.
Proof.
  intros Hi ((HrA & HcA & HrB & HcB & HrW & HcW) & HW & HB).
  unfold calcMatrix_body. size_simpl.
  rewrite (nth_error_nth' ref_points ReferencePoint_default)
    by (unfold SizeT.size in Hn; lia).
  cbn [bind].
  change (calculateStateEquationMatrix vm 0.0%R
            (delta_arc_length
               (nth (Z.to_nat (i - 1)) ref_points ReferencePoint_default)))
    with (step_matrices vm ref_points (Z.to_nat (i - 1))).
  destruct (step_matrices vm ref_points (Z.to_nat (i - 1)))
    as [[Ad Bd] Wd] eqn:E.
  destruct (calc_dims _ _ _ _ _ _ E) as (dA1 & dA2 & dB1 & dB2 & dW1 & dW2).
  unfold segment, assign_segment.
  rewrite block_some by lia. cbn [bind].
  rewrite mul_some by (cbn [block_raw rows]; lia). cbn [bind].
  rewrite add_some by (cbn [mul_raw block_raw rows cols]; lia). cbn [bind].
  rewrite assign_block_some
    by (cbn [add_raw mul_raw block_raw rows cols]; lia).
  cbn [bind].
  destruct (inner_loop i Ad (B st)) as [B' [EB' (HrB' & HcB' & HB')]];
    try assumption.
  rewrite (sub_small i 1) in EB' by lia. rewrite EB'. cbn [bind].
  rewrite assign_block_some by lia. cbn [bind].
  rewrite assign_block_some by lia. cbn [bind].
  eexists. split; [reflexivity|].
  split; [|split].
  - unfold dims_ok. cbn [A B W assign_block_raw rows cols]. lia.
  - intros j a Hj Ha. cbn [W assign_block_raw coeff].
    destruct (Z.eq_dec j i) as [->|Hne].
    + rewrite inside_true by lia.
      destruct (Z.ltb_spec i (i + 1)); [|lia].
      rewrite (to_nat_pred i) by lia. cbn [W_block]. rewrite E.
      replace (2 * i + a - i * 2) with a by lia.
      cbn [add_raw mul_raw block_raw coeff cols]. rewrite dA2.
      f_equal. apply sum_upto_ext. intros b Hb.
      replace ((i - 1) * 2 + b) with (2 * (i - 1) + b) by lia.
      replace (0 + (0 - 0)) with 0 by lia.
      rewrite HW by lia.
      destruct (Z.ltb_spec (i - 1) i); [reflexivity|lia].
    + rewrite inside_false by lia. rewrite HW by lia.
      destruct (Z.ltb_spec j i), (Z.ltb_spec j (i + 1));
        try reflexivity; lia.
  - intros j a c Hj Ha Hcc. cbn [B assign_block_raw coeff].
    destruct (Z.eq_dec j i) as [->|Hne].
    + destruct (Z.ltb_spec i (i + 1)); [|lia].
      rewrite (to_nat_pred i) by lia. cbn [B_block]. rewrite E.
      rewrite Z2Nat.id by lia.
      destruct (Z.ltb_spec c (i - 1)) as [Hlt|Hge].
      * rewrite inside_false by lia. rewrite HB'.
        rewrite inside_true by lia.
        replace (2 * i + a - 2 * i) with a by lia.
        cbn [mul_raw block_raw coeff cols]. rewrite dA2.
        apply sum_upto_ext. intros b Hb.
        replace (c + 0) with c by lia.
        rewrite HB by lia.
        destruct (Z.ltb_spec (i - 1) i); [reflexivity|lia].
      * destruct (Z.eqb_spec c (i - 1)) as [->|Hcne].
        -- rewrite inside_true by lia.
           f_equal; lia.
        -- rewrite inside_false by lia. rewrite HB'.
           rewrite inside_false by lia. rewrite HB by lia.
           destruct (Z.ltb_spec i i); [lia|reflexivity].
    + rewrite inside_false by lia. rewrite HB'.
      rewrite inside_false by lia. rewrite HB by lia.
      destruct (Z.ltb_spec j i), (Z.ltb_spec j (i + 1));
        try reflexivity; lia.
Qed.

Hypothesis Hpos : 1 <= n.

(** The generator built by the two-argument constructor returns a matrix
    triple on every non-empty list, and the triple is described by the
    closed forms. *)
Lemma calcMatrix_closed_form (wheelbase max_steer_rad : R) :
  vm = mkVehicleModel wheelbase max_steer_rad ->
  exists mat,
    calcMatrix (StateEquationGenerator_new wheelbase max_steer_rad)
               ref_points = Some mat /\
    outer_inv vm ref_points n n mat.
Proof.
  intros Hvm. unfold calcMatrix, StateEquationGenerator_new.
  cbn [vehicle_model_ bind]. rewrite <- Hvm, <- Hn.
  unfold calcMatrix_N_x, calcMatrix_N_u, getDimX, getDimU. size_simpl.
  rewrite !Zero_some by lia. cbn [bind].
  unfold assign_segment.
  rewrite assign_block_some by (cbn [zero_raw rows cols]; lia).
  cbn [bind].
  apply for_loop_inv with (P := outer_inv vm ref_points n); [lia| |].
  - split; [|split].
    + unfold dims_ok. cbn [A B W assign_block_raw zero_raw rows cols]. lia.
    + intros j a Hj Ha. cbn [W assign_block_raw zero_raw coeff].
      destruct (inside 0 0 2 1 (2 * j + a) 0), (Z.ltb_spec j 1);
        try reflexivity;
        (replace j with 0 by lia); reflexivity.
    + intros j a c Hj Ha Hc. cbn [B zero_raw coeff].
      destruct (Z.ltb_spec j 1); [|reflexivity].
      replace j with 0 by lia. reflexivity.
  - intros i st Hi Hinv. now apply body_step.
Qed.
End StateEq_facts.

(** ** Properties of the closed forms *)

Section Closed_forms.
Import Eigen Types Vehicle StateEq StateEqInv.
Local Open Scope Z_scope.

Variable vm : VehicleModel.
Variable ref_points : list ReferencePoint.

Lemma sum_upto_two (f : Z -> R) :
  sum_upto 2 f = (f 0%Z + f 1%Z)%R.
Proof. cbn. lra. Qed.

(** Blocks on and above the diagonal of [B] are zero. *)
Lemma B_block_upper (j : nat) (c a b : Z) :
  Z.of_nat j <= c -> coeff (B_block vm ref_points j c) a b = 0%R.
Proof.
  intros Hc. destruct j as [|k]; [reflexivity|].
  cbn [B_block]. destruct (step_matrices vm ref_points k) as [[Ad Bd] Wd].
  destruct (Z.ltb_spec c (Z.of_nat k)); [lia|].
  destruct (Z.eqb_spec c (Z.of_nat k)); [lia|reflexivity].
Qed.

(** With curvature 0.0 and a valid steering limit the offset [W_d] of
    every step vanishes. *)
Lemma step_Wd_zero (k : nat) (Ad Bd Wd : MatrixXd) (a : Z) :
  (0 <= steer_limit_ vm)%R ->
  step_matrices vm ref_points k = (Ad, Bd, Wd) ->
  0 <= a < 2 ->
  coeff Wd a 0 = 0%R.
Proof.
  intros Hs E Ha. unfold step_matrices, calculateStateEquationMatrix in E.
  injection E as _ _ <-.
  replace (wheelbase_ vm * 0.0)%R with 0%R by lra.
  rewrite atan_0.
  assert (Hc : clamp 0 (- steer_limit_ vm) (steer_limit_ vm) = 0%R).
  { unfold clamp.
    destruct (Rlt_dec 0 (- steer_limit_ vm)); [lra|].
    destruct (Rlt_dec (steer_limit_ vm) 0); [lra|reflexivity]. }
  rewrite Hc, tan_0.
  assert (Ha' : a = 0 \/ a = 1) by lia.
  destruct Ha' as [-> | ->]; cbn [from_list coeff].
  - change (Z.to_nat (0 * 1 + 0)) with 0%nat. cbn [nth]. lra.
  - change (Z.to_nat (1 * 1 + 0)) with 1%nat. cbn [nth]. unfold Rdiv. lra.
Qed.


(** Block row [j] of [B U + W] obeys the one-step recurrence. *)
Lemma predict_block (U : MatrixXd) (m : nat) (j : nat) (a : Z) :
  (j <= m)%nat ->
  0 <= a < 2 ->
  (sum_upto m (fun c => coeff (B_block vm ref_points j c) a 0 * coeff U c 0)
   + coeff (W_block vm ref_points j) a 0)%R
  = coeff (simulate vm ref_points U j) a 0.
Proof.
  revert a. induction j as [|k IH]; intros a Hj Ha.
  - cbn [B_block W_block simulate zero_raw coeff].
    rewrite sum_upto_zero; [lra|]. intros; lra.
  - cbn [B_block W_block simulate].
    destruct (step_matrices vm ref_points k) as [[Ad Bd] Wd] eqn:E.
    destruct (calc_dims _ _ _ _ _ _ E) as (dA1 & dA2 & dB1 & dB2 & _).
    cbn [add_raw mul_raw block_raw coeff]. rewrite dA2, dB2.
    change (Z.to_nat 2) with 2%nat. change (Z.to_nat 1) with 1%nat.
    rewrite !sum_upto_two. cbn [sum_upto Z.of_nat].
    rewrite <- !IH by lia.
    rewrite (sum_upto_ext m _
      (fun c =>
         (coeff Ad a 0 *
            (coeff (B_block vm ref_points k c) 0 0 * coeff U c 0)
          + coeff Ad a 1 *
            (coeff (B_block vm ref_points k c) 1 0 * coeff U c 0)
          + (if c =? Z.of_nat k then coeff Bd a 0 * coeff U c 0 else 0))%R)).
    + rewrite !sum_upto_plus, !sum_upto_scal.
      rewrite (sum_upto_single m (Z.of_nat k)
                 (fun c => if c =? Z.of_nat k
                           then (coeff Bd a 0 * coeff U c 0)%R else 0%R)).
      * rewrite Z.eqb_refl.
        replace (Z.of_nat k + 0) with (Z.of_nat k) by lia.
        replace (0 + 0) with 0 by lia. lra.
      * lia.
      * intros c Hc Hne. destruct (Z.eqb_spec c (Z.of_nat k)); [lia|lra].
    + intros c Hc.
      destruct (Z.ltb_spec c (Z.of_nat k)).
      * destruct (Z.eqb_spec c (Z.of_nat k)); [lia|].
        cbn [mul_raw coeff]. rewrite dA2.
        change (Z.to_nat 2) with 2%nat. rewrite sum_upto_two. lra.
      * rewrite !(B_block_upper k c) by lia.
        destruct (Z.eqb_spec c (Z.of_nat k)); cbn [zero_raw coeff]; lra.
Qed.

Lemma simulate_dims (U : MatrixXd) (i : nat) :
  rows (simulate vm ref_points U i) = 2 /\
  cols (simulate vm ref_points U i) = 1.
Proof.
  induction i as [|k [IHr IHc]]; [split; reflexivity|].
  cbn [simulate].
  destruct (step_matrices vm ref_points k) as [[Ad Bd] Wd] eqn:E.
  destruct (calc_dims _ _ _ _ _ _ E) as (dA1 & _).
  cbn [add_raw mul_raw rows cols]. split; assumption.
Qed.

End Closed_forms.

(** ** Claims about the state-equation generator *)

Section StateEq_claims.
Import Eigen Types Vehicle StateEq StateEqInv.
Local Open Scope Z_scope.

Lemma size_bounds (ref_points : list ReferencePoint) :
  ref_points <> [] ->
  SizeT.size ref_points <= ref_points_max_size ->
  1 <= SizeT.size ref_points <= 164703072086692425.
Proof.
  intros Hne Hmax. rewrite ref_points_max_size_val in Hmax.
  split; [|exact Hmax].
  destruct ref_points; [congruence|]. unfold SizeT.size. cbn [length]. lia.
Qed.

(** C1.  For a non-empty list of reference points and an input vector [U]
    with one entry per step, [predict (calcMatrix ref_points) U] is
    defined, is a vector of [2 * N_ref] rows, and its block [i] equals
    the state [X[i]] obtained by simulating
    [X[0] = 0], [X[i] = A_d X[i-1] + B_d u_{i-1} + W_d] step by step with
    the one-step matrices of reference point [i-1] (curvature 0.0 and
    that point's [delta_arc_length]). *)
Theorem predict_matches_simulation
    (wheelbase max_steer_rad : R) (ref_points : list ReferencePoint)
    (U : MatrixXd) :
  ref_points <> [] ->
  SizeT.size ref_points <= ref_points_max_size ->
  rows U = SizeT.size ref_points - 1 ->
  cols U = 1 ->
  exists mat X,
    calcMatrix (StateEquationGenerator_new wheelbase max_steer_rad)
               ref_points = Some mat /\
    predict mat U = Some X /\
    rows X = 2 * SizeT.size ref_points /\ cols X = 1 /\
    forall i : nat, (i < length ref_points)%nat ->
      exists Xi,
        segment X (2 * Z.of_nat i) 2 = Some Xi /\
        Meq Xi (simulate (mkVehicleModel wheelbase max_steer_rad)
                         ref_points U i).
Proof.
  intros Hne Hmax HrU HcU.
  destruct (size_bounds _ Hne Hmax) as [Hpos Hle].
  set (vm := mkVehicleModel wheelbase max_steer_rad).
  destruct (calcMatrix_closed_form vm ref_points _ eq_refl Hle Hpos
              wheelbase max_steer_rad eq_refl)
    as [mat [Hmat ((HrA & HcA & HrB & HcB & HrW & HcW) & HW & HB)]].
  exists mat, (add_raw (mul_raw (B mat) U) (W mat)).
  split; [exact Hmat|]. split; [|split; [|split]].
  - unfold predict. rewrite mul_some by lia. cbn [bind].
    apply add_some; cbn [mul_raw rows cols]; lia.
  - cbn [add_raw mul_raw rows]. exact HrB.
  - cbn [add_raw mul_raw cols]. exact HcU.
  - intros i Hi. unfold segment.
    rewrite block_some
      by (cbn [add_raw mul_raw rows cols]; unfold SizeT.size in *; lia).
    eexists. split; [reflexivity|].
    assert (Hs : forall a, 0 <= a < 2 ->
              coeff (simulate vm ref_points U i) a 0 =
              coeff (block_raw (add_raw (mul_raw (B mat) U) (W mat))
                               (2 * Z.of_nat i) 0 2 1) a 0).
    { intros a Ha.
      rewrite <- (predict_block vm ref_points U
                    (Z.to_nat (SizeT.size ref_points - 1)) i a)
        by (unfold SizeT.size; lia).
      cbn [block_raw add_raw mul_raw coeff]. rewrite HcB.
      replace (0 + 0) with 0 by lia.
      rewrite HW by (unfold SizeT.size; lia).
      destruct (Z.ltb_spec (Z.of_nat i) (SizeT.size ref_points));
        [|unfold SizeT.size in *; lia].
      rewrite Nat2Z.id. f_equal.
      apply sum_upto_ext. intros c Hc.
      rewrite HB by (unfold SizeT.size in *; lia).
      destruct (Z.ltb_spec (Z.of_nat i) (SizeT.size ref_points));
        [|unfold SizeT.size in *; lia].
      rewrite Nat2Z.id. reflexivity. }
    destruct (simulate_dims vm ref_points U i) as [Hr2 Hc2].
    split; [|split].
    + cbn [block_raw rows]. now rewrite Hr2.
    + cbn [block_raw cols]. now rewrite Hc2.
    + intros a b Ha Hb. cbn [block_raw rows cols] in Ha, Hb.
      replace b with 0 by lia. symmetry. now apply Hs.
Qed.

Lemma foldM_ext {St : Type} (f g : Z -> St -> option St) (l : list Z) :
  (forall i s, f i s = g i s) ->
  forall s, foldM f l s = foldM g l s.
Proof.
  intros H. induction l as [|i l IH]; intros s; [reflexivity|].
  cbn [foldM]. rewrite H. destruct (g i s); cbn [bind]; auto.
Qed.

Lemma calcMatrix_body_ext (vm : VehicleModel)
    (refs1 refs2 : list ReferencePoint) (D_x D_u i : Z) (st : Matrix) :
  length refs1 = length refs2 ->
  (forall k, (k < length refs1)%nat ->
     delta_arc_length (nth k refs1 ReferencePoint_default) =
     delta_arc_length (nth k refs2 ReferencePoint_default)) ->
  calcMatrix_body vm refs1 D_x D_u i st =
  calcMatrix_body vm refs2 D_x D_u i st.
Proof.
  intros Hlen Hds. unfold calcMatrix_body.
  set (k := Z.to_nat (SizeT.sub i 1)).
  destruct (nth_error refs1 k) as [p1|] eqn:E1;
    destruct (nth_error refs2 k) as [p2|] eqn:E2; cbn [bind].
  - assert (Hk : (k < length refs1)%nat)
      by (apply nth_error_Some; congruence).
    specialize (Hds k Hk).
    rewrite (nth_error_nth _ _ ReferencePoint_default E1) in Hds.
    rewrite (nth_error_nth _ _ ReferencePoint_default E2) in Hds.
    rewrite Hds. reflexivity.
  - apply nth_error_None in E2.
    assert (Hk : (k < length refs1)%nat)
      by (apply nth_error_Some; congruence).
    lia.
  - apply nth_error_None in E1.
    assert (Hk : (k < length refs2)%nat)
      by (apply nth_error_Some; congruence).
    lia.
  - reflexivity.
Qed.

(** C3.  Two lists of reference points of the same length whose points
    agree on [delta_arc_length] give the same result of [calcMatrix],
    whatever their stored curvatures, poses and weights are: the same
    [A], [B] and [W]. *)
Theorem calcMatrix_depends_only_on_delta_arc_length
    (g : StateEquationGenerator) (refs1 refs2 : list ReferencePoint) :
  length refs1 = length refs2 ->
  (forall k, (k < length refs1)%nat ->
     delta_arc_length (nth k refs1 ReferencePoint_default) =
     delta_arc_length (nth k refs2 ReferencePoint_default)) ->
  calcMatrix g refs1 = calcMatrix g refs2.
Proof.
  intros Hlen Hds. unfold calcMatrix.
  destruct (vehicle_model_ g) as [vm|]; [|reflexivity]. cbn [bind].
  unfold SizeT.size. rewrite <- Hlen.
  destruct (Zero _ _) as [A0|]; [|reflexivity]. cbn [bind].
  destruct (Zero _ _) as [B0|]; [|reflexivity]. cbn [bind].
  destruct (Zero _ _) as [W0|]; [|reflexivity]. cbn [bind].
  destruct (Zero _ _) as [Z0|]; [|reflexivity]. cbn [bind].
  destruct (assign_segment _ _ _ _) as [W1|]; [|reflexivity]. cbn [bind].
  unfold for_loop. apply foldM_ext.
  intros i st. now apply calcMatrix_body_ext.
Qed.

(** C4.  For a non-empty list of [N_ref] reference points [calcMatrix]
    returns [B] of size [(D_x N_ref) x (D_u (N_ref - 1))], [W] of length
    [D_x N_ref] and [A] of size [(D_x N_ref) x (D_x N_ref)], with
    [D_x = getDimX = 2] and [D_u = getDimU = 1]; every block [B[i, k]]
    with [k >= i] is zero, and so is the whole first block row of [B]. *)
Theorem calcMatrix_shape
    (wheelbase max_steer_rad : R) (ref_points : list ReferencePoint) :
  ref_points <> [] ->
  SizeT.size ref_points <= ref_points_max_size ->
  let vm := mkVehicleModel wheelbase max_steer_rad in
  let N_ref := SizeT.size ref_points in
  let D_x := getDimX vm in
  let D_u := getDimU vm in
  D_x = 2 /\ D_u = 1 /\
  exists mat,
    calcMatrix (StateEquationGenerator_new wheelbase max_steer_rad)
               ref_points = Some mat /\
    rows (B mat) = D_x * N_ref /\ cols (B mat) = D_u * (N_ref - 1) /\
    rows (W mat) = D_x * N_ref /\ cols (W mat) = 1 /\
    rows (A mat) = D_x * N_ref /\ cols (A mat) = D_x * N_ref /\
    (forall i k, 0 <= i < N_ref -> i <= k < N_ref - 1 ->
       exists blk,
         block (B mat) (D_x * i) (D_u * k) D_x D_u = Some blk /\
         Meq blk (zero_raw D_x D_u)) /\
    (forall k, 0 <= k < N_ref - 1 ->
       exists blk,
         block (B mat) 0 (D_u * k) D_x D_u = Some blk /\
         Meq blk (zero_raw D_x D_u)).
Proof.
  intros Hne Hmax vm N_ref D_x D_u.
  destruct (size_bounds _ Hne Hmax) as [Hpos Hle].
  destruct (calcMatrix_closed_form vm ref_points _ eq_refl Hle Hpos
              wheelbase max_steer_rad eq_refl)
    as [mat [Hmat ((HrA & HcA & HrB & HcB & HrW & HcW) & HW & HB)]].
  split; [reflexivity|]. split; [reflexivity|].
  exists mat. split; [exact Hmat|].
  subst D_x D_u. unfold getDimX, getDimU. fold N_ref in HrA, HcA, HrB, HcB, HrW.
  repeat (split; [lia|]).
  assert (Hblk : forall i k, 0 <= i < N_ref -> i <= k < N_ref - 1 ->
            exists blk,
              block (B mat) (2 * i) (1 * k) 2 1 = Some blk /\
              Meq blk (zero_raw 2 1)).
  { intros i k Hi Hk. rewrite block_some by lia.
    eexists. split; [reflexivity|].
    split; [reflexivity|]. split; [reflexivity|].
    intros a b Ha Hb. cbn [block_raw rows cols] in Ha, Hb.
    cbn [block_raw zero_raw coeff].
    replace (1 * k + b) with k by lia.
    rewrite HB by (fold N_ref; lia). fold N_ref.
    destruct (Z.ltb_spec i N_ref); [|reflexivity].
    apply B_block_upper. lia. }
  split; [exact Hblk|].
  intros k Hk. apply (Hblk 0 k); lia.
Qed.




(** C10.  For every non-empty list the size computations do not wrap
    ([N_x = 2 N_ref], [N_u = N_ref - 1]) and no size or block index leaves
    the allocated matrices, so [calcMatrix] returns; for the empty list
    [N_ref - 1] wraps to [2^64 - 1], so does [N_u], and [calcMatrix] has
    no result. *)
Theorem calcMatrix_precondition (wheelbase max_steer_rad : R) :
  (forall ref_points : list ReferencePoint,
     ref_points <> [] ->
     SizeT.size ref_points <= ref_points_max_size ->
     calcMatrix_N_x (SizeT.size ref_points) 2
       = 2 * SizeT.size ref_points /\
     calcMatrix_N_u (SizeT.size ref_points) 1
       = SizeT.size ref_points - 1 /\
     exists mat,
       calcMatrix (StateEquationGenerator_new wheelbase max_steer_rad)
                  ref_points = Some mat) /\
  SizeT.sub (SizeT.size (@nil ReferencePoint)) 1 = 2 ^ 64 - 1 /\
  calcMatrix_N_u (SizeT.size (@nil ReferencePoint)) 1 = 2 ^ 64 - 1 /\
  calcMatrix (StateEquationGenerator_new wheelbase max_steer_rad) [] = None.
Proof.
  split; [|split; [|split]]; try reflexivity.
  intros ref_points Hne Hmax.
  destruct (size_bounds _ Hne Hmax) as [Hpos Hle].
  split; [|split].
  - unfold calcMatrix_N_x. rewrite mul_small by lia. lia.
  - unfold calcMatrix_N_u. rewrite sub_small by lia.
    rewrite mul_small by lia. lia.
  - destruct (calcMatrix_closed_form
                (mkVehicleModel wheelbase max_steer_rad) ref_points _
                eq_refl Hle Hpos wheelbase max_steer_rad eq_refl)
      as [mat [Hmat _]].
    exists mat. exact Hmat.
Qed.
End StateEq_claims.

(** ** Vectors of doubles *)

Section Vector_facts.
Import Spline.
Local Open Scope nat_scope.

Lemma length_assign (v : list R) (i : nat) (r : R) :
  length (assign v i r) = length v.
Proof.
  revert i. induction v as [|h t IH]; intros [|i]; cbn [assign length];
    try reflexivity. now rewrite IH.
Qed.

Lemma at_assign_eq (v : list R) (i : nat) (r : R) :
  i < length v -> at_ (assign v i r) i = r.
Proof.
  unfold at_. revert i. induction v as [|h t IH]; intros [|i] Hi;
    cbn [assign length nth] in *; try lia; try reflexivity.
  apply IH. lia.
Qed.

Lemma at_assign_neq (v : list R) (i j : nat) (r : R) :
  i <> j -> at_ (assign v i r) j = at_ v j.
Proof.
  unfold at_. revert i j. induction v as [|h t IH]; intros [|i] [|j] Hij;
    cbn [assign nth]; try reflexivity; try lia.
  apply IH. lia.
Qed.

Lemma length_new_vector (n : nat) : length (new_vector n) = n.
Proof. apply repeat_length. Qed.

Lemma at_new_vector (n i : nat) : at_ (new_vector n) i = 0%R.
Proof.
  unfold at_, new_vector. revert i.
  induction n as [|n IH]; intros [|i]; cbn [repeat nth];
    try reflexivity; try lra. apply IH.
Qed.

Lemma length_resize (v : list R) (n : nat) : length (resize v n) = n.
Proof.
  unfold resize. rewrite length_app, length_firstn, repeat_length. lia.
Qed.

Lemma front_at (v : list R) : front v = at_ v 0.
Proof. destruct v; reflexivity. Qed.

Lemma back_at (v : list R) : back v = at_ v (length v - 1).
Proof.
  unfold back, at_. induction v as [|h t IH]; [reflexivity|].
  destruct t as [|h' t']; [reflexivity|].
  cbn [last length] in *. rewrite IH.
  replace (S (S (length t')) - 1) with (S (length t' - 0)) by lia.
  cbn [nth]. replace (S (length t') - 1) with (length t' - 0) by lia.
  reflexivity.
Qed.

(** Branches on a comparison of doubles. *)
Lemma if_Rle_true {X : Type} (v w : R) (a b : X) :
  (v <= w)%R -> (if Rle_dec v w then a else b) = a.
Proof. intros H. destruct (Rle_dec v w); [reflexivity|lra]. Qed.

Lemma if_Rle_false {X : Type} (v w : R) (a b : X) :
  (w < v)%R -> (if Rle_dec v w then a else b) = b.
Proof. intros H. destruct (Rle_dec v w); [lra|reflexivity]. Qed.

Lemma if_Rge_true {X : Type} (v w : R) (a b : X) :
  (v >= w)%R -> (if Rge_dec v w then a else b) = a.
Proof. intros H. destruct (Rge_dec v w); [reflexivity|lra]. Qed.

Lemma if_Rge_false {X : Type} (v w : R) (a b : X) :
  (v < w)%R -> (if Rge_dec v w then a else b) = b.
Proof. intros H. destruct (Rge_dec v w); [lra|reflexivity]. Qed.

(** Loops over an increasing and over a decreasing index. *)
Lemma fold_left_seq_inv {St : Type} (P : nat -> St -> Prop)
    (f : St -> nat -> St) (n lo : nat) (s : St) :
  P lo s ->
  (forall i s, lo <= i < lo + n -> P i s -> P (S i) (f s i)) ->
  P (lo + n) (fold_left f (seq lo n) s).
Proof.
  revert lo s. induction n as [|n IH]; intros lo s H0 step.
  - now rewrite Nat.add_0_r.
  - cbn [seq fold_left]. replace (lo + S n) with (S lo + n) by lia.
    apply IH.
    + apply step; [lia|exact H0].
    + intros i s0 Hi. apply step. lia.
Qed.

Lemma fold_left_countdown_inv {St : Type} (Q : nat -> St -> Prop)
    (f : St -> nat -> St) (m : nat) (s : St) :
  Q m s ->
  (forall i s, i < m -> Q (S i) s -> Q i (f s i)) ->
  Q 0 (fold_left f (rev (seq 0 m)) s).
Proof.
  revert s. induction m as [|m IH]; intros s H0 step; [exact H0|].
  rewrite seq_S, rev_app_distr. cbn [rev app fold_left Nat.add].
  apply IH.
  - apply step; [lia|exact H0].
  - intros i s0 Hi. apply step. lia.
Qed.

Lemma countdown_small (n : nat) :
  2 <= n -> (Z.of_nat n <= 2147483647)%Z ->
  countdown (to_int (Z.of_nat n) - 2) = rev (seq 0 (n - 1)).
Proof.
  intros Hn Hmax. unfold countdown, to_int.
  change (2 ^ 31)%Z with 2147483648%Z.
  change (2 ^ 32)%Z with 4294967296%Z.
  rewrite Z.mod_small by lia.
  do 2 f_equal. lia.
Qed.

Lemma increasing_lt (x : list R) (i j : nat) :
  strictly_increasing x -> i < j < length x -> (at_ x i < at_ x j)%R.
Proof.
  intros Hx [Hij Hj]. induction j as [|j IH]; [lia|].
  destruct (Nat.eq_dec i j) as [->|Hne].
  - replace (S j) with (j + 1) by lia. apply Hx. lia.
  - apply Rlt_trans with (at_ x j).
    + apply IH; lia.
    + replace (S j) with (j + 1) by lia. apply Hx. lia.
Qed.
End Vector_facts.

(** ** Segment lookup *)

Section Lookup_facts.
Import Spline.
Local Open Scope nat_scope.

Lemma increasing_le (x : list R) (i j : nat) :
  strictly_increasing x -> i <= j < length x -> (at_ x i <= at_ x j)%R.
Proof.
  intros Hx [Hij Hj]. destruct (Nat.eq_dec i j) as [->|Hne]; [lra|].
  apply Rlt_le, increasing_lt; [exact Hx|lia].
Qed.

(** The binary search returns the first position whose element is not
    below [x]. *)
Lemma lower_bound_loop_spec (v : list R) (x : R) :
  strictly_increasing v ->
  forall fuel first len,
    len <= fuel ->
    first + len <= length v ->
    (forall j, j < first -> (at_ v j < x)%R) ->
    (forall j, first + len <= j < length v -> ~ (at_ v j < x)%R) ->
    let r := lower_bound_loop fuel v first len x in
    (forall j, j < r -> (at_ v j < x)%R) /\
    (forall j, r <= j < length v -> ~ (at_ v j < x)%R) /\
    r <= length v.
Proof.
  intros Hv fuel. induction fuel as [|fuel IH];
    intros first len Hfuel Hlen Hlo Hhi; cbn [lower_bound_loop].
  - split; [exact Hlo|]. split; [|lia].
    intros j Hj. apply Hhi. lia.
  - destruct (Nat.eqb_spec len 0) as [->|Hne].
    + split; [exact Hlo|]. split; [|lia].
      intros j Hj. apply Hhi. lia.
    + assert (Hhalf : Nat.div2 len < len) by (apply Nat.lt_div2; lia).
      set (half := Nat.div2 len) in *. clearbody half.
      destruct (Rlt_dec (at_ v (first + half)) x) as [Hlt|Hge].
      * apply IH; try lia.
        -- intros j Hj.
           apply Rle_lt_trans with (at_ v (first + half));
             [|exact Hlt].
           apply increasing_le; [exact Hv|lia].
        -- intros j Hj. apply Hhi. lia.
      * apply IH; try lia; [exact Hlo|].
        intros j Hj Hjx. apply Hge.
        apply Rle_lt_trans with (at_ v j); [|exact Hjx].
        apply increasing_le; [exact Hv|lia].
Qed.

Lemma lower_bound_at (v : list R) (i : nat) :
  strictly_increasing v -> i < length v ->
  lower_bound v (at_ v i) = i.
Proof.
  intros Hv Hi. unfold lower_bound.
  destruct (lower_bound_loop_spec v (at_ v i) Hv (length v) 0 (length v))
    as (Hlo & Hhi & Hr); try lia.
  set (r := lower_bound_loop (length v) v 0 (length v) (at_ v i)) in *.
  destruct (Nat.lt_trichotomy r i) as [Hlt|[Heq|Hgt]]; [|exact Heq|].
  - exfalso. apply (Hhi r); [lia|]. apply increasing_lt; [exact Hv|lia].
  - exfalso. specialize (Hlo i Hgt). lra.
Qed.

Lemma findSegment_interior (s : CubicSpline) (i : nat) :
  strictly_increasing (x_ s) ->
  0 < i < length (x_ s) - 1 ->
  findSegment s (at_ (x_ s) i) = i - 1.
Proof.
  intros Hx Hi. unfold findSegment. rewrite lower_bound_at by (trivial; lia).
  destruct (Nat.eqb_spec i (length (x_ s))); [lia|].
  destruct (Nat.eqb_spec i 0); [lia|reflexivity].
Qed.
End Lookup_facts.

(** ** The spline fit *)

Section Fit_facts.
Import Spline SplineSpec.
Local Open Scope nat_scope.

Lemma calc_h_spec (x : list R) (n : nat) :
  length (calc_h x n) = n - 1 /\
  forall i, i < n - 1 -> at_ (calc_h x n) i = (at_ x (i + 1) - at_ x i)%R.
Proof.
  unfold calc_h.
  apply (fold_left_seq_inv
           (fun k h => length h = n - 1 /\
                       forall i, i < k ->
                         at_ h i = (at_ x (i + 1) - at_ x i)%R)
           _ (n - 1) 0).
  - split; [apply length_new_vector|]. intros i Hi. lia.
  - intros k h Hk [Hlen Hh]. split; [now rewrite length_assign|].
    intros i Hi. destruct (Nat.eq_dec i k) as [->|Hne].
    + apply at_assign_eq. lia.
    + rewrite at_assign_neq by lia. apply Hh. lia.
Qed.

Lemma calc_alpha_spec (y h : list R) (n : nat) :
  forall i, 1 <= i -> i + 1 < n ->
    at_ (calc_alpha y h n) i =
    (3.0 / at_ h i * (at_ y (i + 1) - at_ y i)
     - 3.0 / at_ h (i - 1) * (at_ y i - at_ y (i - 1)))%R.
Proof.
  unfold calc_alpha.
  destruct (Nat.le_gt_cases n 2) as [Hsmall|Hn]; [intros; lia|].
  assert (H : length (fold_left
             (fun alpha i =>
                assign alpha i
                  (3.0 / at_ h i * (at_ y (i + 1) - at_ y i)
                   - 3.0 / at_ h (i - 1) * (at_ y i - at_ y (i - 1)))%R)
             (seq 1 (n - 2)) (new_vector n)) = n /\
           forall i, 1 <= i < 1 + (n - 2) ->
             at_ (fold_left
             (fun alpha i =>
                assign alpha i
                  (3.0 / at_ h i * (at_ y (i + 1) - at_ y i)
                   - 3.0 / at_ h (i - 1) * (at_ y i - at_ y (i - 1)))%R)
             (seq 1 (n - 2)) (new_vector n)) i =
             (3.0 / at_ h i * (at_ y (i + 1) - at_ y i)
              - 3.0 / at_ h (i - 1) * (at_ y i - at_ y (i - 1)))%R).
  { apply (fold_left_seq_inv
             (fun k alpha =>
                length alpha = n /\
                forall i, 1 <= i < k ->
                  at_ alpha i =
                  (3.0 / at_ h i * (at_ y (i + 1) - at_ y i)
                   - 3.0 / at_ h (i - 1) * (at_ y i - at_ y (i - 1)))%R)
             _ (n - 2) 1).
    - split; [apply length_new_vector|]. intros i Hi. lia.
    - intros k a Hk [Hlen Ha]. split; [now rewrite length_assign|].
      intros i Hi. destruct (Nat.eq_dec i k) as [->|Hne].
      + apply at_assign_eq. lia.
      + rewrite at_assign_neq by lia. apply Ha. lia. }
  intros i Hi1 Hi2. apply H. lia.
Qed.

Lemma back_substitution_spec (y h : list R) (t : Thomas) (n : nat)
    (k0 : Coeffs) :
  2 <= n -> (Z.of_nat n <= 2147483647)%Z ->
  length (cb k0) = n -> length (cc k0) = n -> length (cd k0) = n ->
  let k := back_substitution y h t n k0 in
  (at_ (cc k) (n - 1) = at_ (cc k0) (n - 1) /\
   at_ (cb k) (n - 1) = at_ (cb k0) (n - 1)) /\
  forall i, i + 1 < n -> back_relations y h t k i.
Proof.
  intros Hn Hmax Hb Hc Hd. unfold back_substitution.
  rewrite countdown_small by assumption.
  pose (Q := fun (m : nat) (k : Coeffs) =>
               (length (cb k) = n /\ length (cc k) = n /\
                length (cd k) = n) /\
               (at_ (cc k) (n - 1) = at_ (cc k0) (n - 1) /\
                at_ (cb k) (n - 1) = at_ (cb k0) (n - 1)) /\
               forall i, m <= i -> i + 1 < n -> back_relations y h t k i).
  assert (HQ : Q 0 (fold_left (back_step y h t) (rev (seq 0 (n - 1))) k0)).
  { apply fold_left_countdown_inv.
    - split; [auto|]. split; [split; reflexivity|]. intros i H1 H2. lia.
    - intros i k Hi ((Lb & Lc & Ld) & Hlast & Hrel).
      split; [|split].
      + cbn [back_step cb cc cd]. now rewrite !length_assign.
      + cbn [back_step cb cc]. rewrite !at_assign_neq by lia. exact Hlast.
      + intros j Hj1 Hj2. unfold back_relations.
        cbn [back_step cb cc cd].
        destruct (Nat.eq_dec j i) as [->|Hne].
        * rewrite !at_assign_eq by lia.
          rewrite !(at_assign_neq _ i (i + 1)) by lia.
          repeat split; reflexivity.
        * rewrite !(at_assign_neq _ i j) by lia.
          rewrite !(at_assign_neq _ i (j + 1)) by lia.
          apply Hrel; lia. }
  destruct HQ as (_ & Hlast & Hrel).
  split; [exact Hlast|]. intros i Hi. apply Hrel; lia.
Qed.

Variable s : CubicSpline.
Variables x y : list R.

Lemma fit_x_y :
  2 <= length x ->
  x_ (calcSplineCoefficients s x y) = x /\
  y_ (calcSplineCoefficients s x y) = y /\
  a_ (calcSplineCoefficients s x y) = y.
Proof.
  intros Hn. unfold calcSplineCoefficients.
  destruct (Nat.ltb_spec (length x) 2); [lia|].
  destruct (length x =? 2); repeat split.
Qed.

Lemma fit_few :
  length x < 2 -> calcSplineCoefficients s x y = s.
Proof.
  intros Hn. unfold calcSplineCoefficients.
  destruct (Nat.ltb_spec (length x) 2); [reflexivity|lia].
Qed.

(** Two samples: the linear case. *)
Lemma fit_two :
  length x = 2 ->
  at_ (b_ (calcSplineCoefficients s x y)) 0
    = ((at_ y 1 - at_ y 0) / (at_ x 1 - at_ x 0))%R /\
  at_ (c_ (calcSplineCoefficients s x y)) 0 = 0%R /\
  at_ (d_ (calcSplineCoefficients s x y)) 0 = 0%R.
Proof.
  intros Hn. unfold calcSplineCoefficients. rewrite Hn.
  cbn [Nat.ltb Nat.leb Nat.eqb b_ c_ d_].
  rewrite !at_assign_eq by (rewrite length_resize; lia).
  repeat split; lra.
Qed.

(** Three samples or more: [b_] and [d_] are tied to [c_] as the back
    substitution leaves them, and [c_] ends with 0. *)
Lemma fit_relations :
  3 <= length x -> (Z.of_nat (length x) <= 2147483647)%Z ->
  let s' := calcSplineCoefficients s x y in
  at_ (c_ s') (length x - 1) = 0%R /\
  forall i, i + 1 < length x ->
    at_ (b_ s') i =
      ((at_ y (i + 1) - at_ y i) / (at_ x (i + 1) - at_ x i)
       - (at_ x (i + 1) - at_ x i)
         * (at_ (c_ s') (i + 1) + 2.0 * at_ (c_ s') i) / 3.0)%R /\
    at_ (d_ s') i =
      ((at_ (c_ s') (i + 1) - at_ (c_ s') i)
       / (3.0 * (at_ x (i + 1) - at_ x i)))%R.
Proof.
  intros Hn Hmax. unfold calcSplineCoefficients.
  destruct (Nat.ltb_spec (length x) 2); [lia|].
  destruct (Nat.eqb_spec (length x) 2); [lia|].
  cbn [b_ c_ d_].
  match goal with
  | |- context [back_substitution y ?h ?t ?n ?k0] =>
      destruct (back_substitution_spec y h t n k0) as [Hlast Hrel];
      [lia|exact Hmax| | | |]
  end; cbn [cb cc cd]; rewrite ?length_assign, ?length_resize; try reflexivity.
  destruct Hlast as [Hlast _]. cbn [cc] in Hlast. split.
  - rewrite Hlast. rewrite at_assign_eq by (rewrite length_resize; lia). lra.
  - intros i Hi. destruct (Hrel i Hi) as (_ & Hb & Hd).
    destruct (calc_h_spec x (length x)) as [_ Hh].
    rewrite Hh in Hb, Hd by lia. split; assumption.
Qed.

(** No branch of the fit writes the last entry of [b_]: it keeps the
    value [resize] gave it. *)
Lemma fit_b_last :
  2 <= length x -> (Z.of_nat (length x) <= 2147483647)%Z ->
  back (b_ (calcSplineCoefficients s x y))
  = at_ (resize (b_ s) (length x)) (length x - 1).
Proof.
  intros Hn Hmax. rewrite back_at. unfold calcSplineCoefficients.
  destruct (Nat.ltb_spec (length x) 2); [lia|].
  destruct (Nat.eqb_spec (length x) 2) as [E2|E2]; cbn [b_].
  - rewrite length_assign, length_resize.
    rewrite at_assign_neq by lia. reflexivity.
  - match goal with
    | |- context [back_substitution y ?h ?t ?n ?k0] =>
        destruct (back_substitution_spec y h t n k0) as [[_ Hlast] _];
        [lia|exact Hmax| | | |];
        [cbn [cb cc cd]; rewrite ?length_assign, ?length_resize;
         reflexivity ..|];
        assert (Hlen : length (cb (back_substitution y h t n k0)) = n)
    end.
    { unfold back_substitution.
      match goal with
      | |- length (cb (fold_left ?f ?l ?k0)) = _ =>
          generalize l; intros l0;
          assert (G : forall k1, length (cb k1) = length x ->
                        length (cb (fold_left f l0 k1)) = length x);
          [|apply G; cbn [cb]; apply length_resize]
      end.
      induction l0 as [|i l0 IH]; intros k1 Hk1; [exact Hk1|].
      cbn [fold_left]. apply IH. cbn [back_step cb].
      now rewrite length_assign. }
    rewrite Hlen, Hlast. reflexivity.
Qed.
End Fit_facts.

(** ** Queries at the sample abscissas *)

Section Knot_facts.
Import Spline.
Local Open Scope nat_scope.

Variable s : CubicSpline.
Variables x y : list R.
Hypothesis Hn : 2 <= length x.
Hypothesis Hmax : (Z.of_nat (length x) <= 2147483647)%Z.
Hypothesis Hy : length y = length x.
Hypothesis Hx : strictly_increasing x.

Local Abbreviation s' := (calcSplineCoefficients s x y).

Lemma fitted_not_empty : empty (x_ s') = false.
Proof.
  clear Hmax Hy Hx.
  destruct (fit_x_y s x y Hn) as (-> & _).
  destruct x; [cbn [length] in Hn; lia|reflexivity].
Qed.

Lemma knot_segment (i : nat) :
  0 < i < length x - 1 -> findSegment s' (at_ x i) = i - 1.
Proof.
  intros Hi. destruct (fit_x_y s x y Hn) as (E & _).
  pose proof (findSegment_interior s' i) as H. rewrite E in H.
  apply H; assumption.
Qed.

(** The cubic of segment [i] reaches [y[i+1]] at its right end. *)
Lemma segment_right_end (i : nat) :
  3 <= length x -> i + 1 < length x ->
  let dx := (at_ x (i + 1) - at_ x i)%R in
  (at_ (a_ s') i + at_ (b_ s') i * dx + at_ (c_ s') i * dx * dx
   + at_ (d_ s') i * dx * dx * dx)%R = at_ y (i + 1).
Proof.
  intros H3 Hi dx.
  destruct (fit_x_y s x y Hn) as (_ & _ & Ea).
  destruct (fit_relations s x y H3 Hmax) as [_ Hrel].
  destruct (Hrel i Hi) as [Hb Hd].
  rewrite Ea, Hb, Hd. fold dx.
  assert (Hdx : dx <> 0%R).
  { unfold dx. pose proof (Hx i Hi). lra. }
  replace 3.0%R with 3%R by lra. replace 2.0%R with 2%R by lra.
  field. exact Hdx.
Qed.

Lemma interpolate_knot (i : nat) :
  i < length x -> interpolate s' (at_ x i) = at_ y i.
Proof.
  intros Hi. unfold interpolate. rewrite fitted_not_empty.
  destruct (fit_x_y s x y Hn) as (Ex & Ey & _).
  rewrite Ex, Ey, !front_at, !back_at, Hy.
  destruct (Nat.eq_dec i 0) as [->|Hi0].
  - rewrite if_Rle_true by lra. reflexivity.
  - rewrite if_Rle_false by (apply increasing_lt; [exact Hx|lia]).
    destruct (Nat.eq_dec i (length x - 1)) as [->|Hil].
    + rewrite if_Rge_true by lra. reflexivity.
    + rewrite if_Rge_false by (apply increasing_lt; [exact Hx|lia]).
      cbv zeta. rewrite knot_segment by lia.
      pose proof (segment_right_end (i - 1)) as Hseg.
      replace (i - 1 + 1) with i in Hseg by lia.
      apply Hseg; lia.
Qed.
End Knot_facts.

(** ** Samples on a straight line *)

Section Affine_facts.
Import Spline SplineSpec.
Local Open Scope nat_scope.

Lemma thomas_z_zero (x h alpha : list R) (n : nat) :
  (forall i, 1 <= i -> i + 1 < n -> at_ alpha i = 0%R) ->
  forall j, at_ (z (thomas_forward x h alpha n)) j = 0%R.
Proof.
  intros Halpha. unfold thomas_forward.
  assert (H : length (z (fold_left (thomas_step x h alpha) (seq 1 (n - 2))
                  (mkThomas (assign (new_vector n) 0 1.0)
                            (assign (new_vector n) 0 0.0)
                            (assign (new_vector n) 0 0.0)))) = n /\
              forall j,
                at_ (z (fold_left (thomas_step x h alpha) (seq 1 (n - 2))
                  (mkThomas (assign (new_vector n) 0 1.0)
                            (assign (new_vector n) 0 0.0)
                            (assign (new_vector n) 0 0.0)))) j = 0%R).
  { apply (fold_left_seq_inv
             (fun (k : nat) t => length (z t) = n /\
                                 forall j, at_ (z t) j = 0%R)
             _ (n - 2) 1).
    - cbn [z]. split; [now rewrite length_assign, length_new_vector|].
      intros j. destruct (Nat.eq_dec j 0) as [->|Hj].
      + destruct n as [|n']; [reflexivity|].
        rewrite at_assign_eq by (rewrite length_new_vector; lia). lra.
      + rewrite at_assign_neq by lia. apply at_new_vector.
    - intros i t Hi [Hlen Hz]. cbn [thomas_step z].
      split; [now rewrite length_assign|].
      intros j. destruct (Nat.eq_dec j i) as [->|Hj].
      + rewrite at_assign_eq by lia.
        rewrite Halpha, Hz by lia. unfold Rdiv. ring.
      + rewrite at_assign_neq by lia. apply Hz. }
  apply H.
Qed.

Variable s : CubicSpline.
Variables x y : list R.
Variables p q : R.
Hypothesis Hmax : (Z.of_nat (length x) <= 2147483647)%Z.
Hypothesis Hx : strictly_increasing x.
Hypothesis Hline : forall j, j < length x -> at_ y j = (p + q * at_ x j)%R.

Local Abbreviation s' := (calcSplineCoefficients s x y).

Lemma line_step (i : nat) :
  i + 1 < length x ->
  ((at_ y (i + 1) - at_ y i) / (at_ x (i + 1) - at_ x i))%R = q.
Proof.
  intros Hi. rewrite !Hline by lia. pose proof (Hx i Hi). field. lra.
Qed.

Lemma line_alpha_zero (i : nat) :
  1 <= i -> i + 1 < length x ->
  at_ (calc_alpha y (calc_h x (length x)) (length x)) i = 0%R.
Proof.
  intros Hi1 Hi2. rewrite calc_alpha_spec by assumption.
  destruct (calc_h_spec x (length x)) as [_ Hh].
  rewrite !Hh by lia.
  pose proof (line_step i Hi2) as E1.
  pose proof (line_step (i - 1)) as E0.
  replace (i - 1 + 1) with i in * by lia.
  specialize (E0 ltac:(lia)).
  unfold Rdiv in *.
  replace (3.0 * / (at_ x (i + 1) - at_ x i) * (at_ y (i + 1) - at_ y i))%R
    with (3.0 * ((at_ y (i + 1) - at_ y i) * / (at_ x (i + 1) - at_ x i)))%R
    by ring.
  replace (3.0 * / (at_ x i - at_ x (i - 1)) * (at_ y i - at_ y (i - 1)))%R
    with (3.0 * ((at_ y i - at_ y (i - 1)) * / (at_ x i - at_ x (i - 1))))%R
    by ring.
  rewrite E1, E0. ring.
Qed.

Lemma line_c_zero (j : nat) :
  3 <= length x -> j < length x -> at_ (c_ s') j = 0%R.
Proof.
  intros H3 Hj. unfold calcSplineCoefficients.
  destruct (Nat.ltb_spec (length x) 2); [lia|].
  destruct (Nat.eqb_spec (length x) 2); [lia|].
  cbn [c_].
  match goal with
  | |- context [back_substitution y ?h ?t ?n ?k0] =>
      destruct (back_substitution_spec y h t n k0) as [Hlast Hrel];
      [lia|exact Hmax| | | |];
      [cbn [cb cc cd]; rewrite ?length_assign, ?length_resize; reflexivity ..
      |];
      set (k := back_substitution y h t n k0) in *
  end.
  destruct Hlast as [Hlast _]. cbn [cc] in Hlast.
  rewrite at_assign_eq in Hlast by (rewrite length_resize; lia).
  assert (Hall : forall d, d < length x ->
                   at_ (cc k) (length x - 1 - d) = 0%R).
  { induction d as [|d IH]; intros Hd.
    - rewrite Nat.sub_0_r, Hlast. lra.
    - destruct (Hrel (length x - 1 - S d)) as (Hc & _); [lia|].
      rewrite Hc. cbn [z mu].
      replace (length x - 1 - S d + 1) with (length x - 1 - d) by lia.
      rewrite IH by lia.
      rewrite at_assign_neq by lia.
      rewrite thomas_z_zero; [ring|].
      intros i Hi1 Hi2. now apply line_alpha_zero. }
  replace j with (length x - 1 - (length x - 1 - j)) by lia.
  apply Hall. lia.
Qed.

(** On a straight line every segment has slope [q] and no curvature. *)
Lemma line_coefficients (i : nat) :
  2 <= length x -> i + 1 < length x ->
  at_ (b_ s') i = q /\ at_ (c_ s') i = 0%R /\ at_ (d_ s') i = 0%R.
Proof.
  intros Hn Hi.
  destruct (Nat.eq_dec (length x) 2) as [H2|H2].
  - assert (i = 0) as -> by lia.
    destruct (fit_two s x y H2) as (Hb & Hc & Hd).
    rewrite Hb, Hc, Hd. split; [|split; reflexivity].
    apply (line_step 0). lia.
  - assert (H3 : 3 <= length x) by lia.
    destruct (fit_relations s x y H3 Hmax) as [_ Hrel].
    destruct (Hrel i Hi) as [Hb Hd].
    rewrite Hb, Hd, !line_c_zero by lia.
    rewrite line_step by lia.
    split; [|split; [reflexivity|]]; unfold Rdiv; ring.
Qed.
End Affine_facts.

(** ** Claims about the cubic spline *)

Section Spline_claims.
Import Spline SplineSpec.
Local Open Scope nat_scope.

Lemma at_map (f : R -> R) (x : list R) (i : nat) :
  i < length x -> at_ (map f x) i = f (at_ x i).
Proof.
  intros Hi. unfold at_.
  rewrite (nth_indep (map f x) 0%R (f 0%R)) by (now rewrite length_map).
  apply map_nth.
Qed.

(** Queries outside the fitted range: what holds for every fit.  The
    value clamps to the nearest sample, the second derivative is 0, and
    on the left the first derivative is the slope of the first segment
    at [x[0]]. *)
Lemma queries_outside_range (s : CubicSpline) (x y : list R) (v : R) :
  2 <= length x -> length y = length x -> strictly_increasing x ->
  let s' := calcSplineCoefficients s x y in
  ((v <= at_ x 0)%R ->
     interpolate s' v = at_ y 0 /\
     derivative s' v = segment_slope s' 0 (at_ x 0) /\
     secondDerivative s' v = 0%R) /\
  ((v >= at_ x (length x - 1))%R ->
     interpolate s' v = at_ y (length x - 1) /\
     secondDerivative s' v = 0%R).
Proof.
  intros Hn Hy Hx s'.
  pose proof (fitted_not_empty s x y Hn) as Hne.
  destruct (fit_x_y s x y Hn) as (Ex & Ey & _).
  assert (Hends : (at_ x 0 < at_ x (length x - 1))%R)
    by (apply increasing_lt; [exact Hx|lia]).
  split; intros Hv.
  - unfold interpolate, derivative, secondDerivative, segment_slope.
    subst s'. rewrite Hne, Ex, Ey, !front_at.
    rewrite !if_Rle_true by exact Hv.
    split; [reflexivity|]. split; [ring|lra].
  - unfold interpolate, secondDerivative. subst s'. rewrite Hne.
    rewrite Ex, Ey, !front_at, !back_at, Hy.
    rewrite !if_Rle_false by lra.
    rewrite !if_Rge_true by exact Hv.
    split; [reflexivity|lra].
Qed.

(** On a freshly constructed spline the first derivative queried at or
    beyond the last abscissa is 0.0 whatever the data: it is the entry
    [b_[n-1]], which the fit resizes but never computes. *)
Lemma derivative_right_of_range_fresh (x y : list R) (v : R) :
  2 <= length x -> (Z.of_nat (length x) <= 2147483647)%Z ->
  strictly_increasing x ->
  (v >= at_ x (length x - 1))%R ->
  derivative (calcSplineCoefficients CubicSpline_default x y) v = 0%R.
Proof.
  intros Hn Hmax Hx Hv. unfold derivative.
  rewrite fitted_not_empty by exact Hn.
  destruct (fit_x_y CubicSpline_default x y Hn) as (Ex & _).
  assert (Hends : (at_ x 0 < at_ x (length x - 1))%R)
    by (apply increasing_lt; [exact Hx|lia]).
  rewrite Ex, !front_at, !back_at.
  rewrite if_Rle_false by lra. rewrite if_Rge_true by exact Hv.
  rewrite <- back_at, fit_b_last by assumption.
  cbn [b_ CubicSpline_default]. unfold resize.
  rewrite firstn_nil. cbn [app length]. rewrite Nat.sub_0_r.
  apply at_new_vector.
Qed.

Lemma line_increasing : strictly_increasing line_x.
Proof.
  intros i Hi. cbn [line_x length] in Hi.
  assert (i = 0) as -> by lia. unfold at_, line_x. cbn [nth Nat.add]. lra.
Qed.

(** C5 (defect).  The spline fitted to the two samples (0, 0), (1, 1) is
    the line of slope 1: its only segment has slope 1 at the last
    abscissa.  [derivative] queried at the last abscissa, or beyond it,
    returns 0 instead. *)
Theorem derivative_right_of_range_defect :
  let s := calcSplineCoefficients CubicSpline_default line_x line_y in
  segment_slope s 0 1 = 1%R /\
  derivative s 1 = 0%R /\
  derivative s 5 = 0%R.
Proof.
  intros s. split; [|split].
  - unfold segment_slope.
    destruct (fit_two CubicSpline_default line_x line_y eq_refl)
      as (Hb & Hc & Hd).
    fold s in Hb, Hc, Hd. rewrite Hb, Hc, Hd.
    unfold at_, line_x, line_y. cbn [nth]. field.
  - apply derivative_right_of_range_fresh;
      [cbn; lia|cbn; lia|exact line_increasing|].
    unfold at_, line_x. cbn [nth length Nat.sub]. lra.
  - apply derivative_right_of_range_fresh;
      [cbn; lia|cbn; lia|exact line_increasing|].
    unfold at_, line_x. cbn [nth length Nat.sub]. lra.
Qed.



Lemma parabola_increasing : strictly_increasing parabola_x.
Proof.
  intros i Hi. cbn [parabola_x length] in Hi.
  assert (Hc : i = 0 \/ i = 1) by lia.
  destruct Hc as [-> | ->]; unfold at_, parabola_x; cbn [nth Nat.add]; lra.
Qed.



End Spline_claims.

(** ** Claims about the vehicle model *)

Section Vehicle_claims.
Import Eigen Types Vehicle Samples.
Local Open Scope R_scope.

(** For a valid range [[-limit, limit]], [std::clamp] is the projection
    on the range. *)
Lemma clamp_symmetric (v limit : R) :
  0 <= limit -> clamp v (- limit) limit = Rmax (- limit) (Rmin v limit).
Proof.
  intros Hl. unfold clamp, Rmax, Rmin.
  destruct (Rlt_dec v (- limit)), (Rlt_dec limit v), (Rle_dec v limit);
    try lra;
    match goal with
    | |- context [Rle_dec ?a ?b] => destruct (Rle_dec a b)
    end; lra.
Qed.

(** C2.  With wheelbase [L], a steering limit [limit >= 0],
    [delta_r = atan (L kappa)] and [delta_s] the projection of [delta_r]
    on the range from [- limit] to [limit],
    [calculateStateEquationMatrix] returns
    [A_d] with rows (1, ds) and (0, 1),
    [B_d] with entries 0 and [ds / (L cos^2 delta_r)], and
    [W_d] with entries 0 and
    [- ds kappa + (ds / L) (tan delta_s - delta_s / cos^2 delta_s)];
    [A_d] does not depend on [kappa], and neither [A_d] nor [B_d]
    depends on the steering limit. *)
Theorem calculateStateEquationMatrix_formulas
    (vm : VehicleModel) (kappa ds : R) :
  0 <= steer_limit_ vm ->
  let L := wheelbase_ vm in
  let delta_r := atan (L * kappa) in
  let delta_r_star :=
    Rmax (- steer_limit_ vm) (Rmin delta_r (steer_limit_ vm)) in
  calculateStateEquationMatrix vm kappa ds =
    (from_list 2 2 [1; ds;
                    0; 1],
     from_list 2 1 [0;
                    ds / (L * (cos delta_r) ^ 2)],
     from_list 2 1 [0;
                    - ds * kappa
                    + (ds / L) * (tan delta_r_star
                                  - delta_r_star / (cos delta_r_star) ^ 2)])
  /\ (forall kappa',
        fst (fst (calculateStateEquationMatrix vm kappa' ds))
        = fst (fst (calculateStateEquationMatrix vm kappa ds)))
  /\ (forall limit',
        fst (calculateStateEquationMatrix (mkVehicleModel L limit') kappa ds)
        = fst (calculateStateEquationMatrix vm kappa ds)).
Proof.
  intros Hl L delta_r delta_r_star.
  split; [|split; [reflexivity|reflexivity]].
  unfold calculateStateEquationMatrix.
  rewrite (clamp_symmetric _ _ Hl).
  fold L. fold delta_r. fold delta_r_star.
  replace 1.0 with 1 by lra. replace 0.0 with 0 by lra.
  replace (ds / L / (cos delta_r * cos delta_r))
    with (ds / (L * cos delta_r ^ 2))
    by (unfold Rdiv; rewrite !Rinv_mult; cbn [pow]; rewrite Rmult_1_r;
        rewrite Rinv_mult; ring).
  replace (cos delta_r_star * cos delta_r_star)
    with (cos delta_r_star ^ 2) by (cbn [pow]; ring).
  reflexivity.
Qed.
End Vehicle_claims.

(** ** Claims about the parameter records *)

Section Param_claims.
Import Types.
Local Open Scope R_scope.

(** C8.  The default-constructed parameter record carries the documented
    configuration defaults. *)
Theorem PathOptimizerParam_defaults :
  let p := PathOptimizerParam_default in
  output_delta_arc_length (trajectory p) = 0.5 /\
  output_backward_traj_length (trajectory p) = 2.0 /\
  num_points (mpt p) = 100%Z /\
  delta_arc_length_for_mpt_points (mpt p) = 1.0 /\
  max_optimization_time_ms (mpt p) = 50 /\
  terminal_lat_error_weight (mpt p) = 100 /\
  goal_lat_error_weight (mpt p) = 1000 /\
  optimization_center_offset (mpt p) = 0.0 /\
  max_steer_rad (mpt p) = 0.7 /\
  max_steer_rate_rad_per_s (mpt p) = 0.5 /\
  enable_avoidance (mpt p) = true /\
  avoidance_precision (mpt p) = 0.5 /\
  soft_collision_free_weight (mpt p) = 1000 /\
  enable_terminal_constraint (mpt p) = true /\
  terminal_lat_error_threshold (mpt p) = 0.3 /\
  terminal_yaw_error_threshold (mpt p) = 0.1 /\
  max_path_shape_change_dist (replan_checker p) = 0.5 /\
  max_ego_moving_dist (replan_checker p) = 5.0 /\
  max_delta_time_sec (replan_checker p) = 2.0 /\
  enable_outside_drivable_area_stop p = true /\
  vehicle_stop_margin_outside_drivable_area p = 0.5 /\
  enable_skip_optimization p = false /\
  enable_reset_prev_optimization p = true.
Proof.
  cbv zeta.
  cbn [PathOptimizerParam_default TrajectoryParam_default MPTParam_default
       ReplanCheckerParam_default trajectory mpt replan_checker
       output_delta_arc_length output_backward_traj_length num_points
       delta_arc_length_for_mpt_points max_optimization_time_ms
       terminal_lat_error_weight goal_lat_error_weight
       optimization_center_offset max_steer_rad max_steer_rate_rad_per_s
       enable_avoidance avoidance_precision soft_collision_free_weight
       enable_terminal_constraint terminal_lat_error_threshold
       terminal_yaw_error_threshold max_path_shape_change_dist
       max_ego_moving_dist max_delta_time_sec
       enable_outside_drivable_area_stop
       vehicle_stop_margin_outside_drivable_area enable_skip_optimization
       enable_reset_prev_optimization].
  repeat split; try reflexivity; lra.
Qed.
End Param_claims.

(** ** The theorems at sample inputs *)

Section Witnesses.
Import Eigen Types Vehicle StateEq Samples Spline SplineSpec.

Lemma curved_size_ok :
  (SizeT.size curved <= ref_points_max_size)%Z.
Proof. rewrite ref_points_max_size_val. unfold SizeT.size. cbn. lia. Qed.

Lemma predict_matches_simulation_witness :
  exists mat X,
    calcMatrix (StateEquationGenerator_new 2.79 0.7) curved = Some mat /\
    predict mat one_input = Some X /\
    rows X = (2 * SizeT.size curved)%Z /\ cols X = 1%Z /\
    forall i : nat, (i < length curved)%nat ->
      exists Xi,
        segment X (2 * Z.of_nat i) 2 = Some Xi /\
        Meq Xi (simulate (mkVehicleModel 2.79 0.7) curved one_input i).
Proof.
  apply (predict_matches_simulation 2.79 0.7 curved one_input).
  - discriminate.
  - exact curved_size_ok.
  - reflexivity.
  - reflexivity.
Defined.

Lemma calculateStateEquationMatrix_formulas_witness :
  (0 <= steer_limit_ default_vehicle)%R /\
  fst (fst (calculateStateEquationMatrix default_vehicle 0.05 1))
  = from_list 2 2 [1; 1; 0; 1]%R.
Proof.
  assert (H : (0 <= steer_limit_ default_vehicle)%R)
    by (unfold default_vehicle; cbn [steer_limit_]; lra).
  split; [exact H|].
  destruct (calculateStateEquationMatrix_formulas default_vehicle 0.05 1 H)
    as [E _].
  rewrite E. reflexivity.
Defined.

Lemma calcMatrix_depends_only_on_delta_arc_length_witness :
  calcMatrix (StateEquationGenerator_new 2.79 0.7) straight
  = calcMatrix (StateEquationGenerator_new 2.79 0.7) curved.
Proof.
  apply calcMatrix_depends_only_on_delta_arc_length.
  - reflexivity.
  - intros k Hk. cbn [straight length] in Hk.
    destruct k as [|[|k]]; [reflexivity|reflexivity|lia].
Defined.

Lemma calcMatrix_shape_witness :
  exists mat,
    calcMatrix (StateEquationGenerator_new 2.79 0.7) curved = Some mat /\
    rows (B mat) = 4%Z /\ cols (B mat) = 1%Z /\
    rows (W mat) = 4%Z /\ cols (W mat) = 1%Z /\
    rows (A mat) = 4%Z /\ cols (A mat) = 4%Z.
Proof.
  destruct (calcMatrix_shape 2.79 0.7 curved
              ltac:(discriminate) curved_size_ok)
    as (_ & _ & mat & Hmat & H1 & H2 & H3 & H4 & H5 & H6 & _).
  exists mat. repeat split; assumption.
Defined.


Lemma calcMatrix_precondition_witness :
  exists mat,
    calcMatrix (StateEquationGenerator_new 2.79 0.7) curved = Some mat.
Proof.
  destruct (calcMatrix_precondition 2.79 0.7) as [H _].
  destruct (H curved ltac:(discriminate) curved_size_ok) as (_ & _ & Hm).
  exact Hm.
Defined.


End Witnesses.

(* ================================================================== *)
(** * Further properties *)

(** ** The forward sweep and the spline equations *)

Section Thomas_facts.
Import Spline SplineSpec Segments.
Local Open Scope nat_scope.

Variables x y : list R.
Hypothesis Hx : strictly_increasing x.

Lemma h_positive (i : nat) :
  i + 1 < length x -> (0 < at_ (calc_h x (length x)) i)%R.
Proof.
  intros Hi. destruct (calc_h_spec x (length x)) as [_ Hh].
  rewrite Hh by lia. pose proof (Hx i Hi). lra.
Qed.

Lemma thomas_forward_inv (alpha : list R) :
  3 <= length x ->
  thomas_inv x (calc_h x (length x)) alpha (length x) (length x - 1)
    (thomas_forward x (calc_h x (length x)) alpha (length x)).
Proof.
  intros H3. unfold thomas_forward.
  set (h := calc_h x (length x)). set (n := length x).
  replace (n - 1) with (1 + (n - 2)) by (unfold n; lia).
  apply (fold_left_seq_inv (thomas_inv x h alpha n)).
  - unfold thomas_inv. cbn [l mu z].
    rewrite !length_assign, !length_new_vector.
    rewrite !at_assign_eq by (rewrite length_new_vector; unfold n; lia).
    split; [auto|]. split; [split; lra|]. split; [intros i Hi; lia|].
    intros i Hi. assert (i = 0) as -> by lia.
    rewrite at_assign_eq by (rewrite length_new_vector; unfold n; lia). lra.
  - intros k t Hk ((Ll & Lm & Lz) & (Hm0 & Hz0) & Hrel & Hmu).
    assert (Hhk : (0 < at_ h k)%R) by (apply h_positive; fold n; lia).
    assert (Hhk1 : (0 < at_ h (k - 1))%R) by (apply h_positive; fold n; lia).
    assert (Hxh : (at_ x (k + 1) - at_ x (k - 1) = at_ h k + at_ h (k - 1))%R).
    { destruct (calc_h_spec x (length x)) as [_ Hh]. fold h n in Hh.
      rewrite !Hh by lia. replace (k - 1 + 1) with k by lia. ring. }
    pose proof (Hmu (k - 1) ltac:(lia)) as Hmk.
    set (L := (2.0 * (at_ x (k + 1) - at_ x (k - 1))
               - at_ h (k - 1) * at_ (mu t) (k - 1))%R).
    assert (HL : (2 * at_ h k < L)%R).
    { unfold L. rewrite Hxh.
      assert ((at_ h (k - 1) * at_ (mu t) (k - 1) < at_ h (k - 1))%R) by nra.
      lra. }
    assert (Hlk : at_ (assign (l t) k L) k = L) by (apply at_assign_eq; lia).
    unfold thomas_inv, thomas_step. cbn [l mu z]. fold L. rewrite Hlk.
    rewrite !length_assign.
    split; [auto|]. split; [|split].
    + rewrite !at_assign_neq by lia. auto.
    + intros i Hi. unfold thomas_entry. cbn [l mu z].
      destruct (Nat.eq_dec i k) as [->|Hne].
      * rewrite !at_assign_eq by lia.
        rewrite !(at_assign_neq _ k (k - 1)) by lia.
        split; [lra|]. repeat split; reflexivity.
      * rewrite !(at_assign_neq _ k i) by lia.
        rewrite !(at_assign_neq _ k (i - 1)) by lia.
        apply Hrel. lia.
    + intros i Hi. destruct (Nat.eq_dec i k) as [->|Hne].
      * rewrite at_assign_eq by lia.
        assert (HLpos : (0 < L)%R) by lra.
        split.
        -- apply Rlt_le, Rdiv_lt_0_compat; assumption.
        -- apply (Rmult_lt_reg_r L); [exact HLpos|].
           unfold Rdiv. rewrite Rmult_assoc, Rinv_l by lra. lra.
      * rewrite at_assign_neq by lia. apply Hmu. lia.
Qed.
End Thomas_facts.

Section System_facts.
Import Spline SplineSpec Segments.
Local Open Scope nat_scope.

Lemma tridiagonal_row (h0 h1 m0 m1 z0 z1 L al c0 c1 c2 : R) :
  (L <> 0 ->
   L = 2 * (h1 + h0) - h0 * m0 ->
   m1 = h1 / L ->
   z1 = (al - h0 * z0) / L ->
   c0 = z0 - m0 * c1 ->
   c1 = z1 - m1 * c2 ->
   h0 * c0 + 2 * (h1 + h0) * c1 + h1 * c2 = al)%R.
Proof.
  intros HL EL Em Ez E0 E1.
  assert (H1 : (h1 = m1 * L)%R) by (rewrite Em; field; exact HL).
  assert (H2 : (al = z1 * L + h0 * z0)%R) by (rewrite Ez; field; exact HL).
  replace (2 * (h1 + h0))%R with (L + h0 * m0)%R by lra.
  rewrite E0, H2. rewrite H1 at 1. rewrite E1. ring.
Qed.

Variable s : CubicSpline.
Variables x y : list R.
Hypothesis H3 : 3 <= length x.
Hypothesis Hmax : (Z.of_nat (length x) <= 2147483647)%Z.
Hypothesis Hx : strictly_increasing x.

(** The coefficients [c_] solve the equations of the natural spline. *)
Lemma fit_system :
  at_ (c_ (calcSplineCoefficients s x y)) 0 = 0%R /\
  at_ (c_ (calcSplineCoefficients s x y)) (length x - 1) = 0%R /\
  forall i, 1 <= i -> i + 1 < length x ->
    ((at_ x i - at_ x (i - 1))
       * at_ (c_ (calcSplineCoefficients s x y)) (i - 1)
     + 2 * (at_ x (i + 1) - at_ x (i - 1))
       * at_ (c_ (calcSplineCoefficients s x y)) i
     + (at_ x (i + 1) - at_ x i)
       * at_ (c_ (calcSplineCoefficients s x y)) (i + 1))%R
    = knot_rhs x y i.
Proof.
  unfold calcSplineCoefficients.
  destruct (Nat.ltb_spec (length x) 2); [lia|].
  destruct (Nat.eqb_spec (length x) 2); [lia|].
  cbn [c_].
  set (h := calc_h x (length x)).
  set (alpha := calc_alpha y h (length x)).
  set (t0 := thomas_forward x h alpha (length x)).
  match goal with
  | |- context [back_substitution y h ?t ?n ?k0] =>
      destruct (back_substitution_spec y h t n k0) as [[Hlast _] Hrel];
      [lia|exact Hmax| | | |];
      [cbn [cb cc cd]; rewrite ?length_assign, ?length_resize; reflexivity ..
      |];
      set (k := back_substitution y h t n k0) in *
  end.
  cbn [cc] in Hlast.
  rewrite at_assign_eq in Hlast by (rewrite length_resize; lia).
  destruct (thomas_forward_inv x Hx alpha H3)
    as ((Ll & Lm & Lz) & (Hm0 & Hz0) & Hent & Hmu).
  fold h t0 in Ll, Lm, Lz, Hm0, Hz0, Hent, Hmu.
  destruct (calc_h_spec x (length x)) as [_ Hh]. fold h in Hh.
  split; [|split].
  - destruct (Hrel 0 ltac:(lia)) as (Hc & _). rewrite Hc. cbn [z mu].
    rewrite at_assign_neq by lia. rewrite Hm0, Hz0. ring.
  - rewrite Hlast. lra.
  - intros i Hi1 Hi2.
    destruct (Hrel (i - 1) ltac:(lia)) as (Hc0 & _).
    destruct (Hrel i Hi2) as (Hc1 & _).
    cbn [z mu] in Hc0, Hc1.
    rewrite at_assign_neq in Hc0, Hc1 by lia.
    replace (i - 1 + 1) with i in Hc0 by lia.
    destruct (Hent i ltac:(lia)) as (Hlpos & Hl & Hm & Hz).
    unfold knot_rhs.
    assert (Ea : at_ alpha i =
                 (3 / (at_ x (i + 1) - at_ x i) * (at_ y (i + 1) - at_ y i)
                  - 3 / (at_ x i - at_ x (i - 1))
                    * (at_ y i - at_ y (i - 1)))%R).
    { unfold alpha. rewrite calc_alpha_spec by assumption.
      rewrite !Hh by lia. replace (i - 1 + 1) with i by lia.
      replace 3.0%R with 3%R by lra. reflexivity. }
    rewrite <- Ea.
    assert (Eh1 : at_ h i = (at_ x (i + 1) - at_ x i)%R) by (apply Hh; lia).
    assert (Eh0 : at_ h (i - 1) = (at_ x i - at_ x (i - 1))%R).
    { rewrite Hh by lia. replace (i - 1 + 1) with i by lia. reflexivity. }
    rewrite <- Eh1, <- Eh0.
    replace (at_ x (i + 1) - at_ x (i - 1))%R
      with (at_ h i + at_ h (i - 1))%R in * by (rewrite Eh1, Eh0; ring).
    apply (tridiagonal_row (at_ h (i - 1)) (at_ h i)
             (at_ (mu t0) (i - 1)) (at_ (mu t0) i)
             (at_ (z t0) (i - 1)) (at_ (z t0) i) (at_ (l t0) i)).
    + lra.
    + rewrite Hl. replace 2.0%R with 2%R by lra. reflexivity.
    + exact Hm.
    + exact Hz.
    + exact Hc0.
    + exact Hc1.
Qed.
End System_facts.

(** ** Further properties of the cubic spline *)

Section Spline_properties.
Import Spline SplineSpec Segments.
Local Open Scope nat_scope.

(** The binary search never leaves its window. *)
Lemma lower_bound_loop_le (v : list R) (x : R) :
  forall fuel first len,
    first <= lower_bound_loop fuel v first len x <= first + len.
Proof.
  intros fuel. induction fuel as [|fuel IH]; intros first len;
    cbn [lower_bound_loop]; [lia|].
  destruct (Nat.eqb_spec len 0) as [->|Hne]; [lia|].
  assert (Hhalf : Nat.div2 len < len) by (apply Nat.lt_div2; lia).
  set (half := Nat.div2 len) in *. clearbody half.
  destruct (Rlt_dec (at_ v (first + half)) x).
  - specialize (IH (first + half + 1) (len - half - 1)). lia.
  - specialize (IH first half). lia.
Qed.

Lemma findSegment_in_range (s : CubicSpline) (v : R) :
  2 <= length (x_ s) -> findSegment s v + 1 < length (x_ s).
Proof.
  intros Hn. unfold findSegment, lower_bound.
  pose proof (lower_bound_loop_le (x_ s) v (length (x_ s)) 0 (length (x_ s)))
    as Hle.
  set (it := lower_bound_loop (length (x_ s)) (x_ s) 0 (length (x_ s)) v) in *.
  destruct (Nat.eqb_spec it (length (x_ s))); [lia|].
  destruct (Nat.eqb_spec it 0); lia.
Qed.

Lemma back_substitution_lengths (y h : list R) (t : Thomas) (n : nat)
    (idx : list nat) (k : Coeffs) :
  length (cb k) = n -> length (cc k) = n -> length (cd k) = n ->
  length (cb (fold_left (back_step y h t) idx k)) = n /\
  length (cc (fold_left (back_step y h t) idx k)) = n /\
  length (cd (fold_left (back_step y h t) idx k)) = n.
Proof.
  revert k. induction idx as [|i idx IH]; intros k Hb Hc Hd; [auto|].
  cbn [fold_left]. apply IH; cbn [back_step cb cc cd];
    now rewrite length_assign.
Qed.

Lemma fit_lengths (s : CubicSpline) (x y : list R) :
  2 <= length x ->
  length (b_ (calcSplineCoefficients s x y)) = length x /\
  length (c_ (calcSplineCoefficients s x y)) = length x /\
  length (d_ (calcSplineCoefficients s x y)) = length x.
Proof.
  intros Hn. unfold calcSplineCoefficients.
  destruct (Nat.ltb_spec (length x) 2); [lia|].
  destruct (Nat.eqb_spec (length x) 2); cbn [b_ c_ d_].
  - now rewrite !length_assign, !length_resize.
  - unfold back_substitution. apply back_substitution_lengths; cbn [cb cc cd];
      now rewrite ?length_assign, length_resize.
Qed.

(** X1.  After a fit of at least two samples, whatever the abscissas and
    whatever the query, [findSegment] returns an index [i] with
    [i + 1 < n]: the reads [x_[i]], [b_[i]], [c_[i]], [d_[i]] (and
    [a_[i]] when [y] is as long as [x]) of the three queries stay inside
    the vectors. *)
Theorem findSegment_within_segments
    (s : CubicSpline) (x y : list R) (v : R) :
  2 <= length x ->
  let s' := calcSplineCoefficients s x y in
  let i := findSegment s' v in
  i + 1 < length x /\
  i < length (x_ s') /\ i < length (b_ s') /\
  i < length (c_ s') /\ i < length (d_ s') /\
  (length y = length x -> i < length (a_ s')).
Proof.
  intros Hn s' i. destruct (fit_x_y s x y Hn) as (Ex & _ & Ea).
  destruct (fit_lengths s x y Hn) as (Lb & Lc & Ld).
  assert (H : i + 1 < length x).
  { pose proof (findSegment_in_range s' v) as H. subst s'.
    rewrite Ex in H. exact (H Hn). }
  subst s'. rewrite Ex, Ea, Lb, Lc, Ld.
  repeat split; try lia.
Qed.

Lemma lower_bound_between (x : list R) (v : R) (i : nat) :
  strictly_increasing x -> i + 1 < length x ->
  (at_ x i < v <= at_ x (i + 1))%R ->
  lower_bound x v = i + 1.
Proof.
  intros Hx Hi [Hlo Hhi]. unfold lower_bound.
  destruct (lower_bound_loop_spec x v Hx (length x) 0 (length x))
    as (Hbelow & Habove & Hr); try lia.
  set (r := lower_bound_loop (length x) x 0 (length x) v) in *.
  destruct (Nat.lt_trichotomy r (i + 1)) as [Hlt|[Heq|Hgt]]; [|exact Heq|].
  - exfalso. apply (Habove i); [lia|exact Hlo].
  - exfalso. specialize (Hbelow (i + 1) Hgt). lra.
Qed.

Lemma findSegment_between (s : CubicSpline) (v : R) (i : nat) :
  strictly_increasing (x_ s) -> i + 1 < length (x_ s) ->
  (at_ (x_ s) i < v <= at_ (x_ s) (i + 1))%R ->
  findSegment s v = i.
Proof.
  intros Hx Hi Hv. unfold findSegment.
  rewrite (lower_bound_between _ v i Hx Hi Hv).
  destruct (Nat.eqb_spec (i + 1) (length (x_ s))); [lia|].
  destruct (Nat.eqb_spec (i + 1) 0); lia.
Qed.

(** X2.  For strictly increasing abscissas [findSegment] returns the
    segment that holds the query: [i] when [x[i] < v <= x[i+1]], the first
    segment when [v <= x[0]] and the last one when [v > x[n-1]]. *)
Theorem findSegment_locates_query
    (s : CubicSpline) (x y : list R) (v : R) :
  2 <= length x ->
  strictly_increasing x ->
  let s' := calcSplineCoefficients s x y in
  (forall i, i + 1 < length x ->
     (at_ x i < v <= at_ x (i + 1))%R -> findSegment s' v = i) /\
  ((v <= at_ x 0)%R -> findSegment s' v = 0) /\
  ((at_ x (length x - 1) < v)%R -> findSegment s' v = length x - 2).
Proof.
  intros Hn Hx s'. destruct (fit_x_y s x y Hn) as (Ex & _).
  split; [|split].
  - intros i Hi Hv. apply findSegment_between; subst s'; rewrite Ex;
      assumption.
  - intros Hv. unfold findSegment, lower_bound. subst s'. rewrite Ex.
    destruct (lower_bound_loop_spec x v Hx (length x) 0 (length x))
      as (Hbelow & _ & _); try lia.
    set (r := lower_bound_loop (length x) x 0 (length x) v) in *.
    assert (Hr : r = 0).
    { destruct r as [|r]; [reflexivity|].
      specialize (Hbelow 0 ltac:(lia)). lra. }
    rewrite Hr. destruct (Nat.eqb_spec 0 (length x)); [lia|reflexivity].
  - intros Hv. unfold findSegment, lower_bound. subst s'. rewrite Ex.
    destruct (lower_bound_loop_spec x v Hx (length x) 0 (length x))
      as (_ & Habove & Hle); try lia.
    set (r := lower_bound_loop (length x) x 0 (length x) v) in *.
    assert (Hr : r = length x).
    { destruct (Nat.eq_dec r (length x)) as [E|E]; [exact E|].
      exfalso. apply (Habove (length x - 1)); [lia|].
      exact Hv. }
    rewrite Hr, Nat.eqb_refl. reflexivity.
Qed.

(** X3.  For strictly increasing abscissas every divisor of the fit is
    positive: [x[1] - x[0]] of the two-sample case and, for three samples
    or more, the step widths [h[i]] and the pivots [l[i]] of the forward
    sweep; the multipliers [mu[i]] stay in the range from 0 to 1. *)
Theorem fit_divisors_positive (x y : list R) :
  2 <= length x ->
  strictly_increasing x ->
  let n := length x in
  let h := calc_h x n in
  let t := thomas_forward x h (calc_alpha y h n) n in
  (0 < at_ x 1 - at_ x 0)%R /\
  (3 <= n ->
   (forall i, i + 1 < n -> (0 < at_ h i)%R /\ (0 < 3.0 * at_ h i)%R) /\
   (forall i, 1 <= i -> i + 1 < n -> (0 < at_ (l t) i)%R) /\
   (forall i, i + 1 < n -> (0 <= at_ (mu t) i < 1)%R)).
Proof.
  intros Hn Hx n h t.
  split; [pose proof (Hx 0 ltac:(lia)) as H; cbn [Nat.add] in H; lra|].
  intros H3.
  destruct (thomas_forward_inv x Hx (calc_alpha y h n) H3)
    as (_ & _ & Hent & Hmu).
  fold n h t in Hent, Hmu.
  split; [|split].
  - intros i Hi. pose proof (h_positive x Hx i Hi) as H. fold n h in H.
    split; lra.
  - intros i Hi1 Hi2. destruct (Hent i ltac:(lia)) as (Hpos & _).
    exact Hpos.
  - intros i Hi. apply Hmu. lia.
Qed.

(** X4.  The coefficients [c_] of a fit of three or more samples solve
    the equations of the natural cubic spline:
    [c[0] = 0], [c[n-1] = 0] and, at every interior knot [i],
    [h[i-1] c[i-1] + 2 (h[i-1] + h[i]) c[i] + h[i] c[i+1]
     = 3 (y[i+1] - y[i]) / h[i] - 3 (y[i] - y[i-1]) / h[i-1]]. *)
Theorem fit_solves_spline_equations (s : CubicSpline) (x y : list R) :
  3 <= length x ->
  (Z.of_nat (length x) <= 2147483647)%Z ->
  strictly_increasing x ->
  let c := c_ (calcSplineCoefficients s x y) in
  at_ c 0 = 0%R /\
  at_ c (length x - 1) = 0%R /\
  forall i, 1 <= i -> i + 1 < length x ->
    ((at_ x i - at_ x (i - 1)) * at_ c (i - 1)
     + 2 * ((at_ x i - at_ x (i - 1)) + (at_ x (i + 1) - at_ x i)) * at_ c i
     + (at_ x (i + 1) - at_ x i) * at_ c (i + 1))%R
    = (3 * (at_ y (i + 1) - at_ y i) / (at_ x (i + 1) - at_ x i)
       - 3 * (at_ y i - at_ y (i - 1)) / (at_ x i - at_ x (i - 1)))%R.
Proof.
  intros H3 Hmax Hx c.
  destruct (fit_system s x y H3 Hmax Hx) as (H0 & Hl & Hsys).
  split; [exact H0|]. split; [exact Hl|].
  intros i Hi1 Hi2. specialize (Hsys i Hi1 Hi2). unfold knot_rhs in Hsys.
  subst c. unfold Rdiv in *.
  replace ((at_ x i - at_ x (i - 1)) + (at_ x (i + 1) - at_ x i))%R
    with (at_ x (i + 1) - at_ x (i - 1))%R by ring.
  rewrite Hsys. ring.
Qed.

(** X5.  The fitted curve is twice continuously differentiable and
    natural: at every interior knot the cubics of the two adjacent
    segments agree in value, slope and second derivative, and the second
    derivative vanishes at the first and at the last abscissa. *)
Theorem fit_is_smooth (s : CubicSpline) (x y : list R) :
  3 <= length x ->
  (Z.of_nat (length x) <= 2147483647)%Z ->
  strictly_increasing x ->
  let s' := calcSplineCoefficients s x y in
  (forall i, i + 2 < length x ->
     segment_value s' i (at_ x (i + 1))
       = segment_value s' (i + 1) (at_ x (i + 1)) /\
     segment_slope s' i (at_ x (i + 1))
       = segment_slope s' (i + 1) (at_ x (i + 1)) /\
     segment_second s' i (at_ x (i + 1))
       = segment_second s' (i + 1) (at_ x (i + 1))) /\
  segment_second s' 0 (at_ x 0) = 0%R /\
  segment_second s' (length x - 2) (at_ x (length x - 1)) = 0%R.
Proof.
  intros H3 Hmax Hx s'.
  assert (Hn : 2 <= length x) by lia.
  destruct (fit_x_y s x y Hn) as (Ex & _ & Ea).
  destruct (fit_relations s x y H3 Hmax) as [_ Hrel].
  destruct (fit_system s x y H3 Hmax Hx) as (Hc0 & Hcl & Hsys).
  fold s' in Ex, Ea, Hrel, Hc0, Hcl, Hsys.
  assert (Hsec : forall i, i + 1 < length x ->
            segment_second s' i (at_ x (i + 1))
            = (2 * at_ (c_ s') (i + 1))%R).
  { intros i Hi. unfold segment_second. rewrite Ex.
    destruct (Hrel i Hi) as [_ Hd]. rewrite Hd.
    pose proof (Hx i Hi). replace 3.0%R with 3%R by lra. field. lra. }
  assert (Hstart : forall i,
            segment_second s' i (at_ x i) = (2 * at_ (c_ s') i)%R).
  { intros i. unfold segment_second. rewrite Ex. ring. }
  split; [|split].
  - intros i Hi. split; [|split].
    + unfold segment_value at 1. rewrite Ex.
      pose proof (segment_right_end s x y Hn Hmax Hx i H3 ltac:(lia)) as Hv.
      cbv zeta in Hv. fold s' in Hv. rewrite Hv.
      unfold segment_value. rewrite Ex, Ea. ring.
    + unfold segment_slope. rewrite Ex.
      destruct (Hrel i ltac:(lia)) as [Hb Hd].
      destruct (Hrel (i + 1) ltac:(lia)) as [Hb1 _].
      specialize (Hsys (i + 1) ltac:(lia) ltac:(lia)).
      unfold knot_rhs in Hsys.
      replace (i + 1 - 1) with i in Hsys by lia.
      replace (i + 1 + 1) with (i + 2) in * by lia.
      pose proof (Hx i ltac:(lia)) as Hh0.
      pose proof (Hx (i + 1) ltac:(lia)) as Hh1.
      replace (i + 1 + 1) with (i + 2) in Hh1 by lia.
      rewrite Hb, Hd, Hb1.
      replace 3.0%R with 3%R by lra. replace 2.0%R with 2%R by lra.
      set (c0 := at_ (c_ s') i) in *. set (c1 := at_ (c_ s') (i + 1)) in *.
      set (c2 := at_ (c_ s') (i + 2)) in *.
      set (x0 := at_ x i) in *. set (x1 := at_ x (i + 1)) in *.
      set (x2 := at_ x (i + 2)) in *.
      set (y0 := at_ y i) in *. set (y1 := at_ y (i + 1)) in *.
      set (y2 := at_ y (i + 2)) in *.
      assert (Hs2 : ((x1 - x0) * c0 + 2 * (x2 - x0) * c1 + (x2 - x1) * c2
                     - (3 / (x2 - x1) * (y2 - y1)
                        - 3 / (x1 - x0) * (y1 - y0)) = 0)%R) by lra.
      apply Rminus_diag_uniq.
      match goal with
      | |- ?lhs = 0%R =>
          replace lhs with
            ((1 / 3) *
             ((x1 - x0) * c0 + 2 * (x2 - x0) * c1 + (x2 - x1) * c2
              - (3 / (x2 - x1) * (y2 - y1) - 3 / (x1 - x0) * (y1 - y0))))%R
            by (field; lra)
      end.
      rewrite Hs2. ring.
    + rewrite Hsec by lia. rewrite Hstart. reflexivity.
  - rewrite Hstart, Hc0. ring.
  - pose proof (Hsec (length x - 2) ltac:(lia)) as H.
    replace (length x - 2 + 1) with (length x - 1) in H by lia.
    rewrite H, Hcl. ring.
Qed.

Lemma pair_increasing (x0 x1 : R) :
  (x0 < x1)%R -> strictly_increasing [x0; x1].
Proof.
  intros H i Hi. cbn [length] in Hi. assert (i = 0) as -> by lia.
  unfold at_. cbn [nth Nat.add]. exact H.
Qed.

(** X6.  A fit of two samples is the straight line through them: between
    the two abscissas [interpolate] is the linear interpolation,
    [derivative] strictly inside is the slope of the chord, and
    [secondDerivative] is 0 everywhere. *)
Theorem two_samples_give_the_chord
    (s : CubicSpline) (x0 x1 y0 y1 v : R) :
  (x0 < x1)%R ->
  let s' := calcSplineCoefficients s [x0; x1] [y0; y1] in
  ((x0 <= v <= x1)%R ->
     interpolate s' v = (y0 + (y1 - y0) / (x1 - x0) * (v - x0))%R) /\
  ((v < x1)%R -> derivative s' v = ((y1 - y0) / (x1 - x0))%R) /\
  secondDerivative s' v = 0%R.
Proof.
  intros Hx s'.
  assert (Hn : 2 <= length [x0; x1]) by (cbn; lia).
  pose proof (fitted_not_empty s [x0; x1] [y0; y1] Hn) as Hne.
  destruct (fit_x_y s [x0; x1] [y0; y1] Hn) as (Ex & Ey & Ea).
  destruct (fit_two s [x0; x1] [y0; y1] eq_refl) as (Hb & Hc & Hd).
  fold s' in Hne, Ex, Ey, Ea, Hb, Hc, Hd.
  assert (Hseg : (x0 < v < x1)%R -> findSegment s' v = 0).
  { intros Hv. apply findSegment_between; rewrite Ex.
    - now apply pair_increasing.
    - cbn. lia.
    - unfold at_. cbn [nth Nat.add]. lra. }
  unfold at_ in Hb, Hc, Hd. cbn [nth] in Hb, Hc, Hd.
  split; [|split].
  - intros Hv. unfold interpolate.
    rewrite Hne, Ex, Ey. unfold front, back. cbn [hd last].
    destruct (Rle_dec v x0) as [Hl|Hl].
    + replace v with x0 by lra. unfold Rdiv. ring.
    + destruct (Rge_dec v x1) as [Hr|Hr].
      * replace v with x1 by lra. field. lra.
      * cbv zeta. rewrite Hseg by lra. rewrite Ea.
        unfold at_. rewrite Hb, Hc, Hd. cbn [nth]. ring.
  - intros Hv. unfold derivative.
    rewrite Hne, Ex. unfold front, back. cbn [hd last].
    destruct (Rle_dec v x0) as [Hl|Hl].
    + destruct (b_ s') as [|b0 bt] eqn:Eb; cbn [hd nth] in *; [|exact Hb].
      rewrite <- Hb. reflexivity.
    + rewrite if_Rge_false by exact Hv.
      cbv zeta. rewrite Hseg by lra.
      unfold at_. rewrite Hb, Hc, Hd. cbn [nth]. ring.
  - unfold secondDerivative.
    rewrite Hne, Ex. unfold front, back. cbn [hd last].
    destruct (Rle_dec v x0) as [Hl|Hl]; [lra|].
    destruct (Rge_dec v x1) as [Hr|Hr]; [lra|].
    cbv zeta. rewrite Hseg by lra.
    unfold at_. rewrite Hc, Hd. cbn [nth]. ring.
Qed.

(** X7.  Samples on a straight line [p + q x] are reproduced everywhere,
    not only at the sample abscissas: between the first and the last
    abscissa [interpolate] is [p + q v], before the last abscissa
    [derivative] is [q], and [secondDerivative] is 0 for every query. *)
Theorem line_is_reproduced
    (s : CubicSpline) (x : list R) (p q v : R) :
  2 <= length x ->
  (Z.of_nat (length x) <= 2147483647)%Z ->
  strictly_increasing x ->
  let y := map (fun t => (p + q * t)%R) x in
  let s' := calcSplineCoefficients s x y in
  ((at_ x 0 <= v <= at_ x (length x - 1))%R ->
     interpolate s' v = (p + q * v)%R) /\
  ((v < at_ x (length x - 1))%R -> derivative s' v = q) /\
  secondDerivative s' v = 0%R.
Proof.
  intros Hn Hmax Hx y s'.
  assert (Hline : forall j, j < length x -> at_ y j = (p + q * at_ x j)%R).
  { intros j Hj. unfold y. now rewrite at_map. }
  pose proof (line_coefficients s x y p q Hmax Hx Hline) as Hco.
  pose proof (fitted_not_empty s x y Hn) as Hne.
  destruct (fit_x_y s x y Hn) as (Ex & Ey & Ea).
  pose proof (findSegment_in_range s' v) as Hseg.
  fold s' in Hco, Hne, Ex, Ey, Ea. rewrite Ex in Hseg. specialize (Hseg Hn).
  destruct (Hco (findSegment s' v) Hn Hseg) as (Hb & Hc & Hd).
  split; [|split].
  - intros Hv. unfold interpolate.
    rewrite Hne, Ex, Ey, !front_at, !back_at.
    replace (length y) with (length x) by (unfold y; now rewrite length_map).
    destruct (Rle_dec v (at_ x 0)) as [Hl|Hl].
    + rewrite Hline by lia. replace v with (at_ x 0) by lra. reflexivity.
    + destruct (Rge_dec v (at_ x (length x - 1))) as [Hr|Hr].
      * rewrite Hline by lia. replace v with (at_ x (length x - 1)) by lra.
        reflexivity.
      * cbv zeta. rewrite Ea, Hb, Hc, Hd, Hline by lia. ring.
  - intros Hv. unfold derivative.
    rewrite Hne, Ex, !front_at, !back_at.
    destruct (Rle_dec v (at_ x 0)) as [Hl|Hl].
    + destruct (Hco 0 Hn ltac:(lia)) as (Hb0 & _). exact Hb0.
    + rewrite if_Rge_false by exact Hv.
      cbv zeta. rewrite Hb, Hc, Hd. ring.
  - unfold secondDerivative.
    rewrite Hne, Ex, !front_at, !back_at.
    destruct (Rle_dec v (at_ x 0)) as [Hl|Hl]; [lra|].
    destruct (Rge_dec v (at_ x (length x - 1))) as [Hr|Hr]; [lra|].
    cbv zeta. rewrite Hc, Hd. ring.
Qed.

(** The back substitution, as the fit leaves it in [c_]. *)
Lemma fit_c_recurrence (s : CubicSpline) (x y : list R) :
  3 <= length x -> (Z.of_nat (length x) <= 2147483647)%Z ->
  let h := calc_h x (length x) in
  let t := thomas_forward x h (calc_alpha y h (length x)) (length x) in
  at_ (c_ (calcSplineCoefficients s x y)) (length x - 1) = 0%R /\
  forall i, i + 1 < length x ->
    at_ (c_ (calcSplineCoefficients s x y)) i
    = (at_ (z t) i
       - at_ (mu t) i * at_ (c_ (calcSplineCoefficients s x y)) (i + 1))%R.
Proof.
  intros H3 Hmax h t. unfold calcSplineCoefficients.
  destruct (Nat.ltb_spec (length x) 2); [lia|].
  destruct (Nat.eqb_spec (length x) 2); [lia|].
  cbn [c_]. fold h. fold t.
  match goal with
  | |- context [back_substitution y h ?t1 ?n ?k0] =>
      destruct (back_substitution_spec y h t1 n k0) as [[Hlast _] Hrel];
      [lia|exact Hmax| | | |];
      [cbn [cb cc cd]; rewrite ?length_assign, ?length_resize; reflexivity ..
      |];
      set (k := back_substitution y h t1 n k0) in *
  end.
  cbn [cc] in Hlast.
  rewrite at_assign_eq in Hlast by (rewrite length_resize; lia).
  split; [rewrite Hlast; lra|].
  intros i Hi. destruct (Hrel i Hi) as (Hc & _). cbn [z mu] in Hc.
  rewrite at_assign_neq in Hc by lia. exact Hc.
Qed.

(** The coefficients of every segment do not depend on what the object
    held before the fit. *)
Lemma fit_coefficients_independent (s1 s2 : CubicSpline) (x y : list R) :
  2 <= length x -> (Z.of_nat (length x) <= 2147483647)%Z ->
  forall i, i + 1 < length x ->
    at_ (b_ (calcSplineCoefficients s1 x y)) i
      = at_ (b_ (calcSplineCoefficients s2 x y)) i /\
    at_ (c_ (calcSplineCoefficients s1 x y)) i
      = at_ (c_ (calcSplineCoefficients s2 x y)) i /\
    at_ (d_ (calcSplineCoefficients s1 x y)) i
      = at_ (d_ (calcSplineCoefficients s2 x y)) i.
Proof.
  intros Hn Hmax.
  destruct (Nat.eq_dec (length x) 2) as [E2|E2].
  - intros i Hi. assert (i = 0) as -> by lia.
    destruct (fit_two s1 x y E2) as (Hb1 & Hc1 & Hd1).
    destruct (fit_two s2 x y E2) as (Hb2 & Hc2 & Hd2).
    rewrite Hb1, Hb2, Hc1, Hc2, Hd1, Hd2. repeat split.
  - assert (H3 : 3 <= length x) by lia.
    destruct (fit_c_recurrence s1 x y H3 Hmax) as [Hl1 Hr1].
    destruct (fit_c_recurrence s2 x y H3 Hmax) as [Hl2 Hr2].
    assert (Hc : forall d, d < length x ->
              at_ (c_ (calcSplineCoefficients s1 x y)) (length x - 1 - d)
              = at_ (c_ (calcSplineCoefficients s2 x y)) (length x - 1 - d)).
    { induction d as [|d IH]; intros Hd.
      - rewrite Nat.sub_0_r, Hl1, Hl2. reflexivity.
      - rewrite Hr1, Hr2 by lia.
        replace (length x - 1 - S d + 1) with (length x - 1 - d) by lia.
        rewrite IH by lia. reflexivity. }
    assert (Hc' : forall i, i < length x ->
              at_ (c_ (calcSplineCoefficients s1 x y)) i
              = at_ (c_ (calcSplineCoefficients s2 x y)) i).
    { intros i Hi.
      replace i with (length x - 1 - (length x - 1 - i)) by lia.
      apply Hc. lia. }
    intros i Hi.
    destruct (fit_relations s1 x y H3 Hmax) as [_ Hrel1].
    destruct (fit_relations s2 x y H3 Hmax) as [_ Hrel2].
    destruct (Hrel1 i Hi) as [Hb1 Hd1]. destruct (Hrel2 i Hi) as [Hb2 Hd2].
    rewrite Hb1, Hb2, Hd1, Hd2, !Hc' by lia. repeat split.
Qed.

(** X8.  A used spline object can be fitted again: the values of
    [interpolate] and [secondDerivative], and those of [derivative] before
    the last abscissa, are the same whatever the object held before the
    fit. *)
Theorem refit_forgets_previous_fit
    (s1 s2 : CubicSpline) (x y : list R) (v : R) :
  2 <= length x ->
  (Z.of_nat (length x) <= 2147483647)%Z ->
  interpolate (calcSplineCoefficients s1 x y) v
    = interpolate (calcSplineCoefficients s2 x y) v /\
  secondDerivative (calcSplineCoefficients s1 x y) v
    = secondDerivative (calcSplineCoefficients s2 x y) v /\
  ((v < at_ x (length x - 1))%R ->
     derivative (calcSplineCoefficients s1 x y) v
       = derivative (calcSplineCoefficients s2 x y) v).
Proof.
  intros Hn Hmax.
  pose proof (fitted_not_empty s1 x y Hn) as Hne1.
  pose proof (fitted_not_empty s2 x y Hn) as Hne2.
  destruct (fit_x_y s1 x y Hn) as (Ex1 & Ey1 & Ea1).
  destruct (fit_x_y s2 x y Hn) as (Ex2 & Ey2 & Ea2).
  assert (Hseg : findSegment (calcSplineCoefficients s1 x y) v
                 = findSegment (calcSplineCoefficients s2 x y) v)
    by (unfold findSegment; now rewrite Ex1, Ex2).
  pose proof (findSegment_in_range (calcSplineCoefficients s2 x y) v) as Hi.
  rewrite Ex2 in Hi. specialize (Hi Hn).
  destruct (fit_coefficients_independent s1 s2 x y Hn Hmax _ Hi)
    as (Hb & Hc & Hd).
  destruct (fit_coefficients_independent s1 s2 x y Hn Hmax 0 ltac:(lia))
    as (Hb0 & _).
  split; [|split].
  - unfold interpolate.
    rewrite Hne1, Hne2, Ex1, Ex2, Ey1, Ey2, Ea1, Ea2, Hseg, Hb, Hc, Hd.
    reflexivity.
  - unfold secondDerivative.
    rewrite Hne1, Hne2, Ex1, Ex2, Hseg, Hc, Hd. reflexivity.
  - intros Hv. unfold derivative.
    rewrite Hne1, Hne2, Ex1, Ex2, Hseg, Hb, Hc, Hd, !front_at, !back_at, Hb0.
    rewrite !(if_Rge_false v (at_ x (length x - 1))) by exact Hv.
    reflexivity.
Qed.

(** X9.  Queries outside the fitted range are clamped: at or before the
    first abscissa [interpolate] returns the first sample value,
    [derivative] the slope of the first segment at [x[0]] and
    [secondDerivative] 0; at or beyond the last abscissa [interpolate]
    returns the last sample value and [secondDerivative] 0. *)
Theorem queries_are_clamped (s : CubicSpline) (x y : list R) (v : R) :
  2 <= length x -> length y = length x -> strictly_increasing x ->
  let s' := calcSplineCoefficients s x y in
  ((v <= at_ x 0)%R ->
     interpolate s' v = at_ y 0 /\
     derivative s' v = segment_slope s' 0 (at_ x 0) /\
     secondDerivative s' v = 0%R) /\
  ((v >= at_ x (length x - 1))%R ->
     interpolate s' v = at_ y (length x - 1) /\
     secondDerivative s' v = 0%R).
Proof. exact (queries_outside_range s x y v). Qed.
End Spline_properties.

(** ** Further properties of the vehicle model *)

Section Vehicle_properties.
Import Eigen Types Vehicle.
Local Open Scope R_scope.

Lemma cos_atan_positive (x : R) : 0 < cos (atan x).
Proof.
  pose proof (atan_bound x) as [Hlo Hhi].
  apply cos_gt_0; lra.
Qed.

Lemma cos_atan_square (x : R) :
  cos (atan x) * cos (atan x) = / (1 + x * x).
Proof.
  rewrite cos_atan.
  assert (Hpos : 0 < 1 + x * x) by nra.
  assert (Hs : sqrt (1 + x²) * sqrt (1 + x²) = 1 + x * x).
  { rewrite sqrt_sqrt; unfold Rsqr; lra. }
  assert (Hne : sqrt (1 + x²) <> 0).
  { intros E. rewrite E in Hs. lra. }
  unfold Rdiv. rewrite Rmult_1_l, <- Rinv_mult, Hs. reflexivity.
Qed.

Lemma from_list_2_1 (a b : R) :
  coeff (from_list 2 1 [a; b]) 0 0 = a /\
  coeff (from_list 2 1 [a; b]) 1 0 = b.
Proof. split; reflexivity. Qed.

(** X10.  The input gain of one step: the first entry of [B_d] is 0 and
    the second is [ds (1 + (L kappa)^2) / L]; the divisor
    [cos^2 (atan (L kappa))] of the source is positive for every
    curvature. *)
Theorem input_gain_closed_form (vm : VehicleModel) (kappa ds : R) :
  wheelbase_ vm <> 0 ->
  let L := wheelbase_ vm in
  let Bd := snd (fst (calculateStateEquationMatrix vm kappa ds)) in
  0 < cos (atan (L * kappa)) * cos (atan (L * kappa)) /\
  coeff Bd 0 0 = 0 /\
  coeff Bd 1 0 = ds * (1 + (L * kappa) ^ 2) / L.
Proof.
  intros HL L Bd. split; [|split].
  - pose proof (cos_atan_positive (L * kappa)). nra.
  - unfold Bd, calculateStateEquationMatrix. cbn [fst snd].
    rewrite (proj1 (from_list_2_1 _ _)). lra.
  - unfold Bd, calculateStateEquationMatrix. cbn [fst snd].
    rewrite (proj2 (from_list_2_1 _ _)). fold L.
    rewrite cos_atan_square.
    assert (Hpos : 0 < 1 + L * kappa * (L * kappa)) by nra.
    field. split; [exact HL|lra].
Qed.

(** X11.  While the reference steering angle [delta_r = atan (L kappa)]
    is inside the steering limits, the offset is the input gain times
    [- delta_r]: [W_d = - delta_r B_d], so the input [u = delta_r] adds
    nothing to the error state in that step. *)
Theorem reference_steer_cancels_offset (vm : VehicleModel) (kappa ds : R) :
  wheelbase_ vm <> 0 ->
  let delta_r := atan (wheelbase_ vm * kappa) in
  - steer_limit_ vm <= delta_r <= steer_limit_ vm ->
  let Bd := snd (fst (calculateStateEquationMatrix vm kappa ds)) in
  let Wd := snd (calculateStateEquationMatrix vm kappa ds) in
  forall a : Z, (0 <= a < 2)%Z ->
    coeff Bd a 0 * delta_r + coeff Wd a 0 = 0.
Proof.
  intros HL delta_r Hlim Bd Wd a Ha.
  assert (Hc : clamp delta_r (- steer_limit_ vm) (steer_limit_ vm) = delta_r).
  { unfold clamp.
    destruct (Rlt_dec delta_r (- steer_limit_ vm)); [lra|].
    destruct (Rlt_dec (steer_limit_ vm) delta_r); [lra|reflexivity]. }
  unfold Bd, Wd, calculateStateEquationMatrix. cbn [fst snd].
  fold delta_r. rewrite Hc.
  assert (Hcos : 0 < cos delta_r) by apply cos_atan_positive.
  assert (Htan : tan delta_r = wheelbase_ vm * kappa) by apply tan_atan.
  assert (Ha' : (a = 0 \/ a = 1)%Z) by lia.
  destruct Ha' as [-> | ->].
  - rewrite !(proj1 (from_list_2_1 _ _)). lra.
  - rewrite !(proj2 (from_list_2_1 _ _)). rewrite Htan.
    field. split; [lra|exact HL].
Qed.
End Vehicle_properties.

(** ** Further properties of the state-equation generator *)

Section Horizon_facts.
Import Eigen Types Vehicle StateEq StateEqInv Horizon.
Local Open Scope Z_scope.

Ltac idx_simpl :=
  unfold SizeT.mul, SizeT.sub;
  repeat match goal with
         | |- context [SizeT.wrap ?z] => rewrite (wrap_small z) by lia
         end;
  repeat match goal with
         | |- context [SizeT.to_Index ?z] => rewrite (to_Index_small z) by lia
         end.

Variable vm : VehicleModel.
Variable ref_points : list ReferencePoint.
Variable n : Z.
Hypothesis Hn : n = SizeT.size ref_points.
Hypothesis Hmax : n <= 164703072086692425.

(** What one iteration writes into [A]. *)
Lemma body_A (i : Z) (st st' : Matrix) :
  1 <= i < n ->
  outer_inv vm ref_points n i st ->
  calcMatrix_body vm ref_points 2 1 i st = Some st' ->
  A st' = assign_block_raw (A st) (i * 2) ((i - 1) * 2) 2 2
            (fst (fst (step_matrices vm ref_points (Z.to_nat (i - 1))))).
Proof.
  intros Hi ((HrA & HcA & HrB & HcB & HrW & HcW) & HW & HB).
  unfold calcMatrix_body. idx_simpl.
  rewrite (nth_error_nth' ref_points ReferencePoint_default)
    by (unfold SizeT.size in Hn; lia).
  cbn [bind].
  change (calculateStateEquationMatrix vm 0.0%R
            (delta_arc_length
               (nth (Z.to_nat (i - 1)) ref_points ReferencePoint_default)))
    with (step_matrices vm ref_points (Z.to_nat (i - 1))).
  destruct (step_matrices vm ref_points (Z.to_nat (i - 1)))
    as [[Ad Bd] Wd] eqn:E.
  destruct (calc_dims _ _ _ _ _ _ E) as (dA1 & dA2 & dB1 & dB2 & dW1 & dW2).
  unfold segment, assign_segment.
  rewrite block_some by lia. cbn [bind].
  rewrite mul_some by (cbn [block_raw rows]; lia). cbn [bind].
  rewrite add_some by (cbn [mul_raw block_raw rows cols]; lia). cbn [bind].
  rewrite assign_block_some
    by (cbn [add_raw mul_raw block_raw rows cols]; lia).
  cbn [bind].
  destruct (inner_loop n Hmax i Ad (B st)) as [B' [EB' (HrB' & HcB' & HB')]];
    try assumption.
  rewrite (sub_small i 1) in EB' by lia. rewrite EB'. cbn [bind].
  rewrite assign_block_some by lia. cbn [bind].
  rewrite assign_block_some by lia. cbn [bind].
  intros Est. injection Est as <-. reflexivity.
Qed.

Lemma A_step (i : Z) (st st' : Matrix) :
  1 <= i < n ->
  outer_inv vm ref_points n i st ->
  A_inv vm ref_points n i st ->
  calcMatrix_body vm ref_points 2 1 i st = Some st' ->
  A_inv vm ref_points n (i + 1) st'.
Proof.
  intros Hi Hinv HA Hbody j a k b Hj Ha Hk Hb.
  rewrite (body_A i st st' Hi Hinv Hbody). cbn [assign_block_raw coeff].
  destruct (Z.eq_dec j i) as [->|Hji].
  - destruct (Z.eq_dec k (i - 1)) as [->|Hki].
    + rewrite inside_true by lia.
      destruct (Z.leb_spec 1 i); [|lia].
      destruct (Z.ltb_spec i (i + 1)); [|lia].
      rewrite Z.eqb_refl. cbn [andb].
      f_equal; lia.
    + rewrite inside_false by lia. rewrite HA by assumption.
      destruct (Z.ltb_spec i i); [lia|].
      destruct (Z.eqb_spec k (i - 1)); [lia|].
      rewrite !andb_false_r. reflexivity.
  - rewrite inside_false by lia. rewrite HA by assumption.
    destruct (Z.ltb_spec j i), (Z.ltb_spec j (i + 1));
      try reflexivity; lia.
Qed.

Hypothesis Hpos : 1 <= n.

Lemma calcMatrix_with_A (wheelbase max_steer_rad : R) :
  vm = mkVehicleModel wheelbase max_steer_rad ->
  exists mat,
    calcMatrix (StateEquationGenerator_new wheelbase max_steer_rad)
               ref_points = Some mat /\
    outer_inv vm ref_points n n mat /\
    A_inv vm ref_points n n mat.
Proof.
  intros Hvm. unfold calcMatrix, StateEquationGenerator_new.
  cbn [vehicle_model_ bind]. rewrite <- Hvm, <- Hn.
  unfold calcMatrix_N_x, calcMatrix_N_u, getDimX, getDimU. idx_simpl.
  rewrite !Zero_some by lia. cbn [bind].
  unfold assign_segment.
  rewrite assign_block_some by (cbn [zero_raw rows cols]; lia).
  cbn [bind].
  apply for_loop_inv
    with (P := fun i st => outer_inv vm ref_points n i st /\
                           A_inv vm ref_points n i st); [lia| |].
  - split.
    + split; [|split].
      * unfold dims_ok.
        cbn [A B W assign_block_raw zero_raw rows cols]. lia.
      * intros j a Hj Ha. cbn [W assign_block_raw zero_raw coeff].
        destruct (inside 0 0 2 1 (2 * j + a) 0), (Z.ltb_spec j 1);
          try reflexivity;
          (replace j with 0 by lia); reflexivity.
      * intros j a c Hj Ha Hc. cbn [B zero_raw coeff].
        destruct (Z.ltb_spec j 1); [|reflexivity].
        replace j with 0 by lia. reflexivity.
    + intros j a k b Hj Ha Hk Hb. cbn [A zero_raw coeff].
      destruct (Z.leb_spec 1 j), (Z.ltb_spec j 1); cbn [andb];
        try reflexivity; lia.
  - intros i st Hi [Hinv HA].
    destruct (body_step vm ref_points n Hn Hmax i st Hi Hinv)
      as [st' [Hbody Hinv']].
    exists st'. split; [exact Hbody|]. split; [exact Hinv'|].
    now apply (A_step i st).
Qed.
End Horizon_facts.

Section Horizon_properties.
Import Eigen Types Vehicle StateEq StateEqInv Horizon.
Local Open Scope Z_scope.

Lemma from_list_2_2 (a b c d : R) :
  coeff (from_list 2 2 [a; b; c; d]) 0 0 = a /\
  coeff (from_list 2 2 [a; b; c; d]) 0 1 = b /\
  coeff (from_list 2 2 [a; b; c; d]) 1 0 = c /\
  coeff (from_list 2 2 [a; b; c; d]) 1 1 = d.
Proof. repeat split; reflexivity. Qed.

Lemma step_length_nat (ref_points : list ReferencePoint) (k : nat) :
  step_length ref_points (Z.of_nat k)
  = delta_arc_length (nth k ref_points ReferencePoint_default).
Proof. unfold step_length. now rewrite Nat2Z.id. Qed.

(** The one-step matrices at curvature 0.0. *)
Lemma step_Ad (vm : VehicleModel) (ref_points : list ReferencePoint)
    (k : nat) :
  let Ad := fst (fst (step_matrices vm ref_points k)) in
  coeff Ad 0 0 = 1%R /\
  coeff Ad 0 1 = step_length ref_points (Z.of_nat k) /\
  coeff Ad 1 0 = 0%R /\
  coeff Ad 1 1 = 1%R.
Proof.
  rewrite step_length_nat.
  unfold step_matrices, calculateStateEquationMatrix. cbn [fst snd].
  destruct (from_list_2_2 1.0
              (delta_arc_length (nth k ref_points ReferencePoint_default))
              0.0 1.0) as (E00 & E01 & E10 & E11).
  cbv zeta. rewrite E00, E01, E10, E11. repeat split; lra.
Qed.

Lemma step_Bd (vm : VehicleModel) (ref_points : list ReferencePoint)
    (k : nat) :
  wheelbase_ vm <> 0%R ->
  let Bd := snd (fst (step_matrices vm ref_points k)) in
  coeff Bd 0 0 = 0%R /\
  coeff Bd 1 0 = (step_length ref_points (Z.of_nat k) / wheelbase_ vm)%R.
Proof.
  intros HL. rewrite step_length_nat.
  unfold step_matrices, calculateStateEquationMatrix. cbn [fst snd].
  cbv zeta. rewrite (proj1 (from_list_2_1 _ _)), (proj2 (from_list_2_1 _ _)).
  replace (wheelbase_ vm * 0.0)%R with 0%R by lra.
  rewrite atan_0, cos_0. split; [lra|]. field. exact HL.
Qed.

Section With_points.
Variable vm : VehicleModel.
Variable ref_points : list ReferencePoint.

(** One step of the simulation, entry by entry. *)
Lemma simulate_step (U : MatrixXd) (k : nat) :
  wheelbase_ vm <> 0%R ->
  (0 <= steer_limit_ vm)%R ->
  coeff (simulate vm ref_points U (S k)) 0 0
  = (coeff (simulate vm ref_points U k) 0 0
     + step_length ref_points (Z.of_nat k)
       * coeff (simulate vm ref_points U k) 1 0)%R /\
  coeff (simulate vm ref_points U (S k)) 1 0
  = (coeff (simulate vm ref_points U k) 1 0
     + step_length ref_points (Z.of_nat k) / wheelbase_ vm
       * coeff U (Z.of_nat k) 0)%R.
Proof.
  intros HL Hs.
  destruct (step_Ad vm ref_points k) as (A00 & A01 & A10 & A11).
  destruct (step_Bd vm ref_points k HL) as (B0 & B1).
  cbv zeta in A00, A01, A10, A11, B0, B1.
  cbn [simulate].
  destruct (step_matrices vm ref_points k) as [[Ad Bd] Wd] eqn:E.
  destruct (calc_dims _ _ _ _ _ _ E) as (dA1 & dA2 & dB1 & dB2 & _).
  pose proof (step_Wd_zero vm ref_points k Ad Bd Wd 0 Hs E ltac:(lia)) as W0.
  pose proof (step_Wd_zero vm ref_points k Ad Bd Wd 1 Hs E ltac:(lia)) as W1.
  cbn [fst snd] in A00, A01, A10, A11, B0, B1.
  cbn [add_raw mul_raw block_raw coeff]. rewrite dA2, dB2.
  change (Z.to_nat 2) with 2%nat. change (Z.to_nat 1) with 1%nat.
  rewrite !sum_upto_two. cbn [sum_upto Z.of_nat].
  rewrite A00, A01, A10, A11, B0, B1, W0, W1.
  replace (Z.of_nat k + 0) with (Z.of_nat k) by lia.
  replace (0 + 0) with 0 by lia.
  split; ring.
Qed.

(** The simulated state at step [i] reads only the first [i] inputs. *)
Lemma simulate_ext (U U' : MatrixXd) (i : nat) :
  (forall k, 0 <= k < Z.of_nat i -> coeff U k 0 = coeff U' k 0) ->
  forall a, coeff (simulate vm ref_points U i) a 0
            = coeff (simulate vm ref_points U' i) a 0.
Proof.
  induction i as [|k IH]; intros HU a; [reflexivity|].
  cbn [simulate].
  destruct (step_matrices vm ref_points k) as [[Ad Bd] Wd] eqn:E.
  destruct (calc_dims _ _ _ _ _ _ E) as (dA1 & dA2 & dB1 & dB2 & _).
  cbn [add_raw mul_raw block_raw coeff]. rewrite dA2, dB2.
  change (Z.to_nat 2) with 2%nat. change (Z.to_nat 1) with 1%nat.
  rewrite !sum_upto_two. cbn [sum_upto Z.of_nat].
  rewrite !(IH ltac:(intros; apply HU; lia)).
  replace (Z.of_nat k + 0) with (Z.of_nat k) by lia.
  replace (0 + 0) with 0 by lia.
  rewrite (HU (Z.of_nat k)) by lia. reflexivity.
Qed.

(** The yaw error of the simulation in closed form. *)
Lemma simulate_yaw (U : MatrixXd) (i : nat) :
  wheelbase_ vm <> 0%R ->
  (0 <= steer_limit_ vm)%R ->
  coeff (simulate vm ref_points U i) 1 0
  = sum_upto i (fun k => (step_length ref_points k / wheelbase_ vm
                          * coeff U k 0)%R).
Proof.
  intros HL Hs. induction i as [|k IH]; [reflexivity|].
  destruct (simulate_step U k HL Hs) as [_ Hy].
  rewrite Hy, IH. reflexivity.
Qed.

(** Entry [2 j + a] of [B U + W] is entry [a] of the simulated state
    [j]. *)
Lemma predict_coeff (mat : Matrix) (U : MatrixXd) (j : nat) (a : Z) :
  outer_inv vm ref_points (SizeT.size ref_points)
            (SizeT.size ref_points) mat ->
  (j < length ref_points)%nat ->
  0 <= a < 2 ->
  coeff (add_raw (mul_raw (B mat) U) (W mat)) (2 * Z.of_nat j + a) 0
  = coeff (simulate vm ref_points U j) a 0.
Proof.
  intros ((HrA & HcA & HrB & HcB & HrW & HcW) & HW & HB) Hj Ha.
  rewrite <- (predict_block vm ref_points U
                (Z.to_nat (SizeT.size ref_points - 1)) j a)
    by (unfold SizeT.size; lia).
  cbn [add_raw mul_raw coeff]. rewrite HcB.
  rewrite HW by (unfold SizeT.size; lia).
  destruct (Z.ltb_spec (Z.of_nat j) (SizeT.size ref_points));
    [|unfold SizeT.size in *; lia].
  rewrite Nat2Z.id. f_equal.
  apply sum_upto_ext. intros c Hc.
  rewrite HB by (unfold SizeT.size in *; lia).
  destruct (Z.ltb_spec (Z.of_nat j) (SizeT.size ref_points));
    [|unfold SizeT.size in *; lia].
  rewrite Nat2Z.id. reflexivity.
Qed.

Lemma predict_some (mat : Matrix) (U : MatrixXd) :
  dims_ok (SizeT.size ref_points) mat ->
  rows U = SizeT.size ref_points - 1 -> cols U = 1 ->
  predict mat U = Some (add_raw (mul_raw (B mat) U) (W mat)).
Proof.
  intros (HrA & HcA & HrB & HcB & HrW & HcW) HrU HcU.
  unfold predict. rewrite mul_some by lia. cbn [bind].
  apply add_some; cbn [mul_raw rows cols]; lia.
Qed.
End With_points.
End Horizon_properties.

Section Horizon_theorems.
Import Eigen Types Vehicle StateEq StateEqInv Horizon.
Local Open Scope Z_scope.

(** X12.  The matrix [A] returned for a non-empty list holds the one-step
    transition matrix of reference point [j - 1], with rows
    (1, ds) and (0, 1), in block [(j, j - 1)] for every [j >= 1], and
    zeros in every other block. *)
Theorem calcMatrix_A_blocks
    (wheelbase max_steer_rad : R) (ref_points : list ReferencePoint) :
  ref_points <> [] ->
  SizeT.size ref_points <= ref_points_max_size ->
  exists mat,
    calcMatrix (StateEquationGenerator_new wheelbase max_steer_rad)
               ref_points = Some mat /\
    forall j k, 0 <= j < SizeT.size ref_points ->
                0 <= k < SizeT.size ref_points ->
      exists blk,
        block (A mat) (2 * j) (2 * k) 2 2 = Some blk /\
        Meq blk (if (1 <=? j) && (k =? j - 1)
                 then from_list 2 2 [1; step_length ref_points (j - 1);
                                     0; 1]%R
                 else zero_raw 2 2).
Proof.
  intros Hne Hmax.
  destruct (size_bounds _ Hne Hmax) as [Hpos Hle].
  set (vm := mkVehicleModel wheelbase max_steer_rad).
  destruct (calcMatrix_with_A vm ref_points _ eq_refl Hle Hpos
              wheelbase max_steer_rad eq_refl)
    as [mat [Hmat [((HrA & HcA & _) & _) HA]]].
  exists mat. split; [exact Hmat|].
  intros j k Hj Hk. rewrite block_some by lia.
  eexists. split; [reflexivity|].
  assert (Hdim : forall M : MatrixXd, rows M = 2 -> cols M = 2 ->
            (forall a b, 0 <= a < 2 -> 0 <= b < 2 ->
               coeff (A mat) (2 * j + a) (2 * k + b) = coeff M a b) ->
            Meq (block_raw (A mat) (2 * j) (2 * k) 2 2) M).
  { intros M Hr Hc Hco. split; [now rewrite Hr|]. split; [now rewrite Hc|].
    intros a b Ha Hb. cbn [block_raw rows cols] in Ha, Hb.
    cbn [block_raw coeff]. now apply Hco. }
  destruct ((1 <=? j) && (k =? j - 1)) eqn:Eb.
  - apply Hdim; [reflexivity|reflexivity|].
    intros a b Ha Hb. rewrite HA by assumption.
    apply andb_true_iff in Eb. destruct Eb as [E1 E2].
    apply Z.leb_le in E1. apply Z.eqb_eq in E2.
    destruct (Z.leb_spec 1 j); [|lia].
    destruct (Z.ltb_spec j (SizeT.size ref_points)); [|lia].
    rewrite E2, Z.eqb_refl. cbn [andb].
    destruct (step_Ad vm ref_points (Z.to_nat (j - 1)))
      as (A00 & A01 & A10 & A11).
    cbv zeta in A00, A01, A10, A11.
    rewrite Z2Nat.id in A01 by lia.
    destruct (from_list_2_2 1 (step_length ref_points (j - 1)) 0 1)
      as (F00 & F01 & F10 & F11).
    assert (Ca : a = 0 \/ a = 1) by lia.
    assert (Cb : b = 0 \/ b = 1) by lia.
    destruct Ca as [-> | ->], Cb as [-> | ->];
      [rewrite A00, F00|rewrite A01, F01|rewrite A10, F10|rewrite A11, F11];
      reflexivity.
  - apply Hdim; [reflexivity|reflexivity|].
    intros a b Ha Hb. rewrite HA by assumption.
    destruct (Z.leb_spec 1 j), (Z.ltb_spec j (SizeT.size ref_points)),
      (Z.eqb_spec k (j - 1)); cbn [andb] in *;
      try reflexivity; try discriminate; lia.
Qed.

(** X13.  For a vehicle with a non-zero wheelbase and a non-negative
    steering limit, the predicted states obey the error kinematics:
    the first state is zero and from point [i] to point [i + 1] the
    lateral error grows by [ds_i] times the yaw error and the yaw error by
    [ds_i / L] times the input [u_i]. *)
Theorem predict_follows_kinematics
    (wheelbase max_steer_rad : R) (ref_points : list ReferencePoint)
    (U : MatrixXd) :
  wheelbase <> 0%R ->
  (0 <= max_steer_rad)%R ->
  ref_points <> [] ->
  SizeT.size ref_points <= ref_points_max_size ->
  rows U = SizeT.size ref_points - 1 ->
  cols U = 1 ->
  exists mat X,
    calcMatrix (StateEquationGenerator_new wheelbase max_steer_rad)
               ref_points = Some mat /\
    predict mat U = Some X /\
    coeff X 0 0 = 0%R /\ coeff X 1 0 = 0%R /\
    forall i, 0 <= i < SizeT.size ref_points - 1 ->
      coeff X (2 * (i + 1)) 0
      = (coeff X (2 * i) 0
         + step_length ref_points i * coeff X (2 * i + 1) 0)%R /\
      coeff X (2 * (i + 1) + 1) 0
      = (coeff X (2 * i + 1) 0
         + step_length ref_points i / wheelbase * coeff U i 0)%R.
Proof.
  intros HL Hs Hne Hmax HrU HcU.
  destruct (size_bounds _ Hne Hmax) as [Hpos Hle].
  set (vm := mkVehicleModel wheelbase max_steer_rad).
  destruct (calcMatrix_closed_form vm ref_points _ eq_refl Hle Hpos
              wheelbase max_steer_rad eq_refl) as [mat [Hmat Hinv]].
  exists mat, (add_raw (mul_raw (B mat) U) (W mat)).
  split; [exact Hmat|].
  split; [apply (predict_some ref_points); [apply Hinv|assumption..]|].
  assert (Hco : forall (j : nat) a, (j < length ref_points)%nat ->
            0 <= a < 2 ->
            coeff (add_raw (mul_raw (B mat) U) (W mat))
                  (2 * Z.of_nat j + a) 0
            = coeff (simulate vm ref_points U j) a 0)
    by (intros; now apply predict_coeff).
  assert (H1 : (0 < length ref_points)%nat)
    by (unfold SizeT.size in Hpos; lia).
  split; [exact (Hco 0%nat 0 H1 ltac:(lia))|].
  split; [exact (Hco 0%nat 1 H1 ltac:(lia))|].
  intros i Hi.
  destruct (simulate_step vm ref_points U (Z.to_nat i) HL Hs) as [Hlat Hyaw].
  rewrite Z2Nat.id in Hlat, Hyaw by lia.
  assert (Hi0 : (Z.to_nat i < length ref_points)%nat)
    by (unfold SizeT.size in Hi; lia).
  assert (Hi1 : (S (Z.to_nat i) < length ref_points)%nat)
    by (unfold SizeT.size in Hi; lia).
  pose proof (Hco (Z.to_nat i) 0 Hi0 ltac:(lia)) as E0.
  pose proof (Hco (Z.to_nat i) 1 Hi0 ltac:(lia)) as E1.
  pose proof (Hco (S (Z.to_nat i)) 0 Hi1 ltac:(lia)) as F0.
  pose proof (Hco (S (Z.to_nat i)) 1 Hi1 ltac:(lia)) as F1.
  replace (2 * Z.of_nat (Z.to_nat i) + 0) with (2 * i) in E0 by lia.
  replace (2 * Z.of_nat (Z.to_nat i) + 1) with (2 * i + 1) in E1 by lia.
  replace (2 * Z.of_nat (S (Z.to_nat i)) + 0) with (2 * (i + 1)) in F0
    by lia.
  replace (2 * Z.of_nat (S (Z.to_nat i)) + 1) with (2 * (i + 1) + 1) in F1
    by lia.
  rewrite E0, E1, F0, F1. split; assumption.
Qed.

(** X14.  Under the same conditions the predicted yaw error at point [i]
    is the sum of [ds_k / L] times [u_k] over the steps [k < i] before
    it. *)
Theorem predict_yaw_closed_form
    (wheelbase max_steer_rad : R) (ref_points : list ReferencePoint)
    (U : MatrixXd) :
  wheelbase <> 0%R ->
  (0 <= max_steer_rad)%R ->
  ref_points <> [] ->
  SizeT.size ref_points <= ref_points_max_size ->
  rows U = SizeT.size ref_points - 1 ->
  cols U = 1 ->
  exists mat X,
    calcMatrix (StateEquationGenerator_new wheelbase max_steer_rad)
               ref_points = Some mat /\
    predict mat U = Some X /\
    forall i : nat, (i < length ref_points)%nat ->
      coeff X (2 * Z.of_nat i + 1) 0
      = sum_upto i (fun k => (step_length ref_points k / wheelbase
                              * coeff U k 0)%R).
Proof.
  intros HL Hs Hne Hmax HrU HcU.
  destruct (size_bounds _ Hne Hmax) as [Hpos Hle].
  set (vm := mkVehicleModel wheelbase max_steer_rad).
  destruct (calcMatrix_closed_form vm ref_points _ eq_refl Hle Hpos
              wheelbase max_steer_rad eq_refl) as [mat [Hmat Hinv]].
  exists mat, (add_raw (mul_raw (B mat) U) (W mat)).
  split; [exact Hmat|].
  split; [apply (predict_some ref_points); [apply Hinv|assumption..]|].
  intros i Hi.
  rewrite (predict_coeff vm ref_points mat U i 1 Hinv Hi ltac:(lia)).
  apply (simulate_yaw vm ref_points U i HL Hs).
Qed.

(** X15.  The prediction is causal: two input vectors that agree on their
    first [i] entries give the same predicted state at point [i]. *)
Theorem predict_is_causal
    (wheelbase max_steer_rad : R) (ref_points : list ReferencePoint)
    (U U' : MatrixXd) (i : nat) :
  ref_points <> [] ->
  SizeT.size ref_points <= ref_points_max_size ->
  rows U = SizeT.size ref_points - 1 -> cols U = 1 ->
  rows U' = SizeT.size ref_points - 1 -> cols U' = 1 ->
  (i < length ref_points)%nat ->
  (forall k, 0 <= k < Z.of_nat i -> coeff U k 0 = coeff U' k 0) ->
  exists mat X X',
    calcMatrix (StateEquationGenerator_new wheelbase max_steer_rad)
               ref_points = Some mat /\
    predict mat U = Some X /\ predict mat U' = Some X' /\
    forall a, 0 <= a < 2 ->
      coeff X (2 * Z.of_nat i + a) 0 = coeff X' (2 * Z.of_nat i + a) 0.
Proof.
  intros Hne Hmax HrU HcU HrU' HcU' Hi Hagree.
  destruct (size_bounds _ Hne Hmax) as [Hpos Hle].
  set (vm := mkVehicleModel wheelbase max_steer_rad).
  destruct (calcMatrix_closed_form vm ref_points _ eq_refl Hle Hpos
              wheelbase max_steer_rad eq_refl) as [mat [Hmat Hinv]].
  exists mat, (add_raw (mul_raw (B mat) U) (W mat)),
    (add_raw (mul_raw (B mat) U') (W mat)).
  split; [exact Hmat|].
  split; [apply (predict_some ref_points); [apply Hinv|assumption..]|].
  split; [apply (predict_some ref_points); [apply Hinv|assumption..]|].
  intros a Ha.
  rewrite !(predict_coeff vm ref_points mat _ i a Hinv Hi Ha).
  now apply simulate_ext.
Qed.

(** X16.  [predict] has a result exactly for input vectors of
    [N_ref - 1] rows: with any other length the product [B * U] violates
    Eigen's size assertion. *)
Theorem predict_needs_matching_input
    (wheelbase max_steer_rad : R) (ref_points : list ReferencePoint) :
  ref_points <> [] ->
  SizeT.size ref_points <= ref_points_max_size ->
  exists mat,
    calcMatrix (StateEquationGenerator_new wheelbase max_steer_rad)
               ref_points = Some mat /\
    forall U, cols U = 1 ->
      (predict mat U <> None <-> rows U = SizeT.size ref_points - 1).
Proof.
  intros Hne Hmax.
  destruct (size_bounds _ Hne Hmax) as [Hpos Hle].
  set (vm := mkVehicleModel wheelbase max_steer_rad).
  destruct (calcMatrix_closed_form vm ref_points _ eq_refl Hle Hpos
              wheelbase max_steer_rad eq_refl) as [mat [Hmat Hinv]].
  exists mat. split; [exact Hmat|].
  intros U HcU. split.
  - intros Hsome. destruct Hinv as ((_ & _ & _ & HcB & _) & _).
    unfold predict, mul in Hsome.
    destruct (Z.eqb_spec (cols (B mat)) (rows U)) as [E|E]; [lia|].
    cbn [bind] in Hsome. congruence.
  - intros HrU.
    rewrite (predict_some ref_points mat U); [discriminate|apply Hinv|
                                              exact HrU|exact HcU].
Qed.

(** X17.  A horizon of a single reference point has no input: [B] has
    two rows and no column, [A] and [W] are zero, and the prediction for
    the empty input vector is the zero state, for every vehicle. *)
Theorem single_point_horizon
    (wheelbase max_steer_rad : R) (p : ReferencePoint) :
  exists mat,
    calcMatrix (StateEquationGenerator_new wheelbase max_steer_rad) [p]
      = Some mat /\
    rows (B mat) = 2 /\ cols (B mat) = 0 /\
    Meq (A mat) (zero_raw 2 2) /\
    Meq (W mat) (zero_raw 2 1) /\
    forall U, rows U = 0 -> cols U = 1 ->
      exists X, predict mat U = Some X /\ Meq X (zero_raw 2 1).
Proof.
  exists (mkMatrixABW (zero_raw 2 2) (zero_raw 2 0)
            (assign_block_raw (zero_raw 2 1) 0 0 2 1 (zero_raw 2 1))).
  split; [reflexivity|].
  cbn [A B W]. split; [reflexivity|]. split; [reflexivity|].
  split; [|split].
  - split; [reflexivity|]. split; reflexivity.
  - split; [reflexivity|]. split; [reflexivity|].
    intros i j _ _. cbn [assign_block_raw zero_raw coeff].
    now destruct (inside _ _ _ _ i j).
  - intros U HrU HcU. unfold predict.
    cbn [B W].
    rewrite mul_some by (cbn [zero_raw cols]; lia). cbn [bind].
    rewrite add_some
      by (cbn [mul_raw assign_block_raw zero_raw rows cols]; lia).
    eexists. split; [reflexivity|].
    split; [reflexivity|]. split; [cbn [add_raw mul_raw cols]; exact HcU|].
    intros i j _ _.
    cbn [add_raw mul_raw assign_block_raw zero_raw coeff cols].
    change (Z.to_nat 0) with 0%nat. cbn [sum_upto].
    destruct (inside _ _ _ _ i j); lra.
Qed.
End Horizon_theorems.

(** ** A spline that was never fitted *)

Section Unfitted.
Import Spline SplineSpec.

(** X18.  A fit of fewer than two samples leaves a fresh spline empty,
    and every query on it returns 0. *)
Theorem queries_on_unfitted_spline (x y : list R) (v : R) :
  (length x < 2)%nat ->
  let s := calcSplineCoefficients CubicSpline_default x y in
  interpolate s v = 0%R /\ derivative s v = 0%R /\
  secondDerivative s v = 0%R.
Proof.
  intros Hn s. subst s. rewrite fit_few by exact Hn.
  unfold interpolate, derivative, secondDerivative.
  cbn [x_ CubicSpline_default empty]. repeat split; lra.
Qed.
End Unfitted.

(** ** The further properties at sample inputs *)

Section More_witnesses.
Import Eigen Types Vehicle StateEq Samples Spline SplineSpec Segments Horizon.

Lemma parabola_size : (3 <= length parabola_x)%nat.
Proof. cbn. lia. Qed.

Lemma parabola_int : (Z.of_nat (length parabola_x) <= 2147483647)%Z.
Proof. cbn. lia. Qed.

Lemma findSegment_within_segments_witness :
  (findSegment (calcSplineCoefficients CubicSpline_default
                  parabola_x parabola_y) (1 / 2) + 1
   < length parabola_x)%nat.
Proof.
  destruct (findSegment_within_segments CubicSpline_default
              parabola_x parabola_y (1 / 2)) as [H _].
  - cbn. lia.
  - exact H.
Defined.

Lemma findSegment_locates_query_witness :
  findSegment (calcSplineCoefficients CubicSpline_default
                 parabola_x parabola_y) (3 / 2) = 1%nat.
Proof.
  destruct (findSegment_locates_query CubicSpline_default
              parabola_x parabola_y (3 / 2)) as [H _].
  - cbn. lia.
  - exact parabola_increasing.
  - apply (H 1%nat).
    + cbn. lia.
    + unfold at_, parabola_x. cbn [nth Nat.add]. lra.
Defined.

Lemma fit_divisors_positive_witness :
  (0 < at_ parabola_x 1 - at_ parabola_x 0)%R.
Proof.
  destruct (fit_divisors_positive parabola_x parabola_y) as [H _].
  - cbn. lia.
  - exact parabola_increasing.
  - exact H.
Defined.

Lemma fit_solves_spline_equations_witness :
  at_ (c_ (calcSplineCoefficients CubicSpline_default
             parabola_x parabola_y)) 0 = 0%R.
Proof.
  destruct (fit_solves_spline_equations CubicSpline_default
              parabola_x parabola_y) as [H _].
  - exact parabola_size.
  - exact parabola_int.
  - exact parabola_increasing.
  - exact H.
Defined.

Lemma fit_is_smooth_witness :
  let s := calcSplineCoefficients CubicSpline_default
             parabola_x parabola_y in
  segment_slope s 0 (at_ parabola_x 1) = segment_slope s 1 (at_ parabola_x 1).
Proof.
  destruct (fit_is_smooth CubicSpline_default parabola_x parabola_y)
    as [H _].
  - exact parabola_size.
  - exact parabola_int.
  - exact parabola_increasing.
  - destruct (H 0%nat) as (_ & Hs & _); [cbn; lia|exact Hs].
Defined.

Lemma two_samples_give_the_chord_witness :
  secondDerivative (calcSplineCoefficients CubicSpline_default
                      [0; 2]%R [1; 5]%R) 1 = 0%R.
Proof.
  destruct (two_samples_give_the_chord CubicSpline_default 0 2 1 5 1)
    as (_ & _ & H).
  - lra.
  - exact H.
Defined.

Lemma line_is_reproduced_witness :
  secondDerivative
    (calcSplineCoefficients CubicSpline_default parabola_x
       (map (fun t => (1 + 2 * t)%R) parabola_x)) (1 / 2) = 0%R.
Proof.
  destruct (line_is_reproduced CubicSpline_default parabola_x 1 2 (1 / 2))
    as (_ & _ & H).
  - cbn. lia.
  - exact parabola_int.
  - exact parabola_increasing.
  - exact H.
Defined.

Lemma refit_forgets_previous_fit_witness :
  interpolate
    (calcSplineCoefficients
       (calcSplineCoefficients CubicSpline_default line_x line_y)
       parabola_x parabola_y) (1 / 2)
  = interpolate
      (calcSplineCoefficients CubicSpline_default parabola_x parabola_y)
      (1 / 2).
Proof.
  destruct (refit_forgets_previous_fit
              (calcSplineCoefficients CubicSpline_default line_x line_y)
              CubicSpline_default parabola_x parabola_y (1 / 2))
    as [H _].
  - cbn. lia.
  - exact parabola_int.
  - exact H.
Defined.

Lemma queries_are_clamped_witness :
  interpolate (calcSplineCoefficients CubicSpline_default
                 parabola_x parabola_y) (-1) = at_ parabola_y 0.
Proof.
  destruct (queries_are_clamped CubicSpline_default
              parabola_x parabola_y (-1)) as [H _].
  - cbn. lia.
  - reflexivity.
  - exact parabola_increasing.
  - destruct H as [Hv _]; [|exact Hv].
    unfold at_, parabola_x. cbn [nth]. lra.
Defined.

Lemma default_wheelbase_nonzero : wheelbase_ default_vehicle <> 0%R.
Proof. unfold default_vehicle. cbn [wheelbase_]. lra. Qed.

Lemma input_gain_closed_form_witness :
  coeff (snd (fst (calculateStateEquationMatrix default_vehicle 0.05 1)))
        0 0 = 0%R.
Proof.
  destruct (input_gain_closed_form default_vehicle 0.05 1
              default_wheelbase_nonzero) as (_ & H & _).
  exact H.
Defined.

Lemma straight_reference_in_limits :
  (- steer_limit_ default_vehicle
   <= atan (wheelbase_ default_vehicle * 0)
   <= steer_limit_ default_vehicle)%R.
Proof.
  rewrite Rmult_0_r, atan_0. unfold default_vehicle. cbn [steer_limit_].
  lra.
Qed.

Lemma reference_steer_cancels_offset_witness :
  (coeff (snd (fst (calculateStateEquationMatrix default_vehicle 0 1))) 1 0
   * atan (wheelbase_ default_vehicle * 0)
   + coeff (snd (calculateStateEquationMatrix default_vehicle 0 1)) 1 0
   = 0)%R.
Proof.
  apply (reference_steer_cancels_offset default_vehicle 0 1
           default_wheelbase_nonzero straight_reference_in_limits 1%Z).
  lia.
Defined.

Lemma calcMatrix_A_blocks_witness :
  exists mat,
    calcMatrix (StateEquationGenerator_new 2.79 0.7) curved = Some mat.
Proof.
  destruct (calcMatrix_A_blocks 2.79 0.7 curved
              ltac:(discriminate) curved_size_ok) as [mat [H _]].
  exists mat. exact H.
Defined.

Lemma wheelbase_279_nonzero : 2.79%R <> 0%R.
Proof. lra. Qed.

Lemma steer_07_nonneg : (0 <= 0.7)%R.
Proof. lra. Qed.

Lemma predict_follows_kinematics_witness :
  exists mat X,
    calcMatrix (StateEquationGenerator_new 2.79 0.7) curved = Some mat /\
    predict mat one_input = Some X /\
    coeff X 0 0 = 0%R.
Proof.
  destruct (predict_follows_kinematics 2.79 0.7 curved one_input
              wheelbase_279_nonzero steer_07_nonneg
              ltac:(discriminate) curved_size_ok eq_refl eq_refl)
    as (mat & X & H1 & H2 & H3 & _).
  exists mat, X. repeat split; assumption.
Defined.

Lemma predict_yaw_closed_form_witness :
  exists mat X,
    calcMatrix (StateEquationGenerator_new 2.79 0.7) curved = Some mat /\
    predict mat one_input = Some X.
Proof.
  destruct (predict_yaw_closed_form 2.79 0.7 curved one_input
              wheelbase_279_nonzero steer_07_nonneg
              ltac:(discriminate) curved_size_ok eq_refl eq_refl)
    as (mat & X & H1 & H2 & _).
  exists mat, X. split; assumption.
Defined.

Lemma predict_is_causal_witness :
  exists mat X X',
    calcMatrix (StateEquationGenerator_new 2.79 0.7) curved = Some mat /\
    predict mat one_input = Some X /\
    predict mat (from_list 1 1 [0.3%R]) = Some X' /\
    coeff X 0 0 = coeff X' 0 0.
Proof.
  destruct (predict_is_causal 2.79 0.7 curved one_input
              (from_list 1 1 [0.3%R]) 0
              ltac:(discriminate) curved_size_ok
              eq_refl eq_refl eq_refl eq_refl)
    as (mat & X & X' & H1 & H2 & H3 & H4).
  - cbn. lia.
  - intros k Hk. cbn in Hk. lia.
  - exists mat, X, X'. repeat split; try assumption.
    apply (H4 0%Z). lia.
Defined.

Lemma predict_needs_matching_input_witness :
  exists mat,
    calcMatrix (StateEquationGenerator_new 2.79 0.7) curved = Some mat /\
    predict mat one_input <> None.
Proof.
  destruct (predict_needs_matching_input 2.79 0.7 curved
              ltac:(discriminate) curved_size_ok) as [mat [H1 H2]].
  exists mat. split; [exact H1|].
  apply (H2 one_input eq_refl). reflexivity.
Defined.

Lemma queries_on_unfitted_spline_witness :
  interpolate (calcSplineCoefficients CubicSpline_default [1%R] [2%R]) 3
  = 0%R.
Proof.
  destruct (queries_on_unfitted_spline [1%R] [2%R] 3) as [H _].
  - cbn. lia.
  - exact H.
Defined.
End More_witnesses.

(** ** The entries of the input matrix *)

Section Input_matrix.
Import Eigen Types Vehicle StateEq StateEqInv Horizon Samples.
Local Open Scope Z_scope.

Lemma B_block_entries (vm : VehicleModel) (ref_points : list ReferencePoint)
    (j c : nat) :
  wheelbase_ vm <> 0%R ->
  (c < j)%nat ->
  coeff (B_block vm ref_points j (Z.of_nat c)) 0 0
  = ((arc_length ref_points j - arc_length ref_points (S c))
     * (step_length ref_points (Z.of_nat c) / wheelbase_ vm))%R /\
  coeff (B_block vm ref_points j (Z.of_nat c)) 1 0
  = (step_length ref_points (Z.of_nat c) / wheelbase_ vm)%R.
Proof.
  intros HL. induction j as [|k IH]; intros Hc; [lia|].
  destruct (step_Ad vm ref_points k) as (A00 & A01 & A10 & A11).
  destruct (step_Bd vm ref_points k HL) as (B0 & B1).
  cbv zeta in A00, A01, A10, A11, B0, B1.
  cbn [B_block].
  destruct (step_matrices vm ref_points k) as [[Ad Bd] Wd] eqn:E.
  destruct (calc_dims _ _ _ _ _ _ E) as (dA1 & dA2 & _).
  cbn [fst snd] in A00, A01, A10, A11, B0, B1.
  unfold arc_length. cbn [sum_upto].
  destruct (Z.ltb_spec (Z.of_nat c) (Z.of_nat k)) as [Hlt|Hge].
  - destruct (IH ltac:(lia)) as [Hlat Hyaw].
    cbn [mul_raw coeff]. rewrite dA2.
    change (Z.to_nat 2) with 2%nat. rewrite !sum_upto_two.
    rewrite A00, A01, A10, A11, Hlat, Hyaw.
    unfold arc_length. cbn [sum_upto]. split; ring.
  - assert (c = k) as -> by lia.
    rewrite Z.eqb_refl, B0, B1. split; ring.
Qed.

(** X19.  The entries of [B] in closed form, for a vehicle with a
    non-zero wheelbase: in the block of point [j] and input [c < j] the
    yaw row is [ds_c / L] and the lateral row is [ds_c / L] times the arc
    length from point [c + 1] to point [j]. *)
Theorem calcMatrix_B_entries
    (wheelbase max_steer_rad : R) (ref_points : list ReferencePoint) :
  wheelbase <> 0%R ->
  ref_points <> [] ->
  SizeT.size ref_points <= ref_points_max_size ->
  exists mat,
    calcMatrix (StateEquationGenerator_new wheelbase max_steer_rad)
               ref_points = Some mat /\
    forall j c : nat, (c < j < length ref_points)%nat ->
      coeff (B mat) (2 * Z.of_nat j) (Z.of_nat c)
      = ((arc_length ref_points j - arc_length ref_points (S c))
         * (step_length ref_points (Z.of_nat c) / wheelbase))%R /\
      coeff (B mat) (2 * Z.of_nat j + 1) (Z.of_nat c)
      = (step_length ref_points (Z.of_nat c) / wheelbase)%R.
Proof.
  intros HL Hne Hmax.
  destruct (size_bounds _ Hne Hmax) as [Hpos Hle].
  set (vm := mkVehicleModel wheelbase max_steer_rad).
  destruct (calcMatrix_closed_form vm ref_points _ eq_refl Hle Hpos
              wheelbase max_steer_rad eq_refl)
    as [mat [Hmat (_ & _ & HB)]].
  exists mat. split; [exact Hmat|].
  intros j c Hjc.
  destruct (B_block_entries vm ref_points j c HL ltac:(lia)) as [Hlat Hyaw].
  pose proof (HB (Z.of_nat j) 0 (Z.of_nat c)) as E0.
  pose proof (HB (Z.of_nat j) 1 (Z.of_nat c)) as E1.
  replace (2 * Z.of_nat j + 0) with (2 * Z.of_nat j) in E0 by lia.
  rewrite E0, E1 by (unfold SizeT.size; lia).
  destruct (Z.ltb_spec (Z.of_nat j) (SizeT.size ref_points));
    [|unfold SizeT.size in *; lia].
  rewrite Nat2Z.id. split; assumption.
Qed.

Lemma calcMatrix_B_entries_witness :
  exists mat,
    calcMatrix (StateEquationGenerator_new 2.79 0.7) curved = Some mat /\
    coeff (B mat) 3 0 = (step_length curved 0 / 2.79)%R.
Proof.
  destruct (calcMatrix_B_entries 2.79 0.7 curved wheelbase_279_nonzero
              ltac:(discriminate) curved_size_ok) as [mat [H1 H2]].
  exists mat. split; [exact H1|].
  destruct (H2 1%nat 0%nat) as [_ H]; [cbn; lia|exact H].
Defined.
End Input_matrix.

(** ** Left and right curvature *)

Section Mirror.
Import Eigen Types Vehicle Samples.
Local Open Scope R_scope.

Lemma clamp_opp (v limit : R) :
  0 <= limit -> clamp (- v) (- limit) limit = - clamp v (- limit) limit.
Proof.
  intros Hl. unfold clamp.
  destruct (Rlt_dec (- v) (- limit)), (Rlt_dec limit (- v)),
    (Rlt_dec v (- limit)), (Rlt_dec limit v); lra.
Qed.

(** X20.  Mirroring the curvature mirrors the offset and nothing else:
    for a non-negative steering limit, [kappa] and [- kappa] give the same
    [A_d] and [B_d] and opposite [W_d]. *)
Theorem mirrored_curvature (vm : VehicleModel) (kappa ds : R) :
  0 <= steer_limit_ vm ->
  fst (calculateStateEquationMatrix vm (- kappa) ds)
  = fst (calculateStateEquationMatrix vm kappa ds) /\
  forall a : Z, (0 <= a < 2)%Z ->
    coeff (snd (calculateStateEquationMatrix vm (- kappa) ds)) a 0
    = - coeff (snd (calculateStateEquationMatrix vm kappa ds)) a 0.
Proof.
  intros Hl. unfold calculateStateEquationMatrix. cbn [fst snd].
  replace (wheelbase_ vm * - kappa) with (- (wheelbase_ vm * kappa)) by ring.
  rewrite atan_opp, cos_neg. split; [reflexivity|].
  intros a Ha. rewrite (clamp_opp _ _ Hl), tan_neg, cos_neg.
  assert (Ha' : (a = 0 \/ a = 1)%Z) by lia.
  destruct Ha' as [-> | ->].
  - rewrite !(proj1 (from_list_2_1 _ _)). lra.
  - rewrite !(proj2 (from_list_2_1 _ _)). unfold Rdiv. ring.
Qed.

Lemma mirrored_curvature_witness :
  fst (calculateStateEquationMatrix default_vehicle (Ropp 0.05) 1)
  = fst (calculateStateEquationMatrix default_vehicle 0.05 1).
Proof.
  destruct (mirrored_curvature default_vehicle 0.05 1) as [H _].
  - unfold default_vehicle. cbn [steer_limit_]. lra.
  - exact H.
Defined.
End Mirror.

(** ** The spline through arbitrary samples *)

Section Samples_facts.
Import Spline SplineSpec Segments.
Local Open Scope nat_scope.

(** X21.  The fitted spline passes through every sample, whatever the
    values are: [interpolate] at the abscissa [x[i]] returns [y[i]]. *)
Theorem spline_passes_through_samples
    (s : CubicSpline) (x y : list R) (i : nat) :
  2 <= length x ->
  (Z.of_nat (length x) <= 2147483647)%Z ->
  length y = length x ->
  strictly_increasing x ->
  i < length x ->
  interpolate (calcSplineCoefficients s x y) (at_ x i) = at_ y i.
Proof. exact (fun Hn Hmax Hy Hx => interpolate_knot s x y Hn Hmax Hy Hx i). Qed.

Lemma spline_passes_through_samples_witness :
  interpolate (calcSplineCoefficients CubicSpline_default
                 parabola_x parabola_y) (at_ parabola_x 1)
  = at_ parabola_y 1.
Proof.
  apply spline_passes_through_samples.
  - cbn. lia.
  - cbn. lia.
  - reflexivity.
  - exact parabola_increasing.
  - cbn. lia.
Defined.

(** X22.  The clamped values meet the curve: the cubic of the first
    segment takes the first sample value at the first abscissa, and the
    cubic of the last segment takes the last sample value at the last
    abscissa. *)
Theorem curve_meets_clamped_values (s : CubicSpline) (x y : list R) :
  2 <= length x ->
  (Z.of_nat (length x) <= 2147483647)%Z ->
  strictly_increasing x ->
  let s' := calcSplineCoefficients s x y in
  segment_value s' 0 (at_ x 0) = at_ y 0 /\
  segment_value s' (length x - 2) (at_ x (length x - 1))
  = at_ y (length x - 1).
Proof.
  intros Hn Hmax Hx s'.
  destruct (fit_x_y s x y Hn) as (Ex & _ & Ea). fold s' in Ex, Ea.
  split.
  - unfold segment_value. rewrite Ex, Ea. ring.
  - destruct (Nat.eq_dec (length x) 2) as [E2|E2].
    + destruct (fit_two s x y E2) as (Hb & Hc & Hd). fold s' in Hb, Hc, Hd.
      unfold segment_value. rewrite Ex, Ea, E2. cbn [Nat.sub].
      rewrite Hb, Hc, Hd.
      pose proof (Hx 0 ltac:(lia)) as H01. cbn [Nat.add] in H01.
      field. lra.
    + pose proof (segment_right_end s x y Hn Hmax Hx (length x - 2)
                    ltac:(lia) ltac:(lia)) as H.
      cbv zeta in H. fold s' in H.
      replace (length x - 2 + 1) with (length x - 1) in H by lia.
      unfold segment_value. rewrite Ex. exact H.
Qed.

Lemma curve_meets_clamped_values_witness :
  segment_value (calcSplineCoefficients CubicSpline_default
                   parabola_x parabola_y) 0 (at_ parabola_x 0)
  = at_ parabola_y 0.
Proof.
  destruct (curve_meets_clamped_values CubicSpline_default
              parabola_x parabola_y) as [H _].
  - cbn. lia.
  - cbn. lia.
  - exact parabola_increasing.
  - exact H.
Defined.
End Samples_facts.
